(** * QuizApp: answer collection and scoring of [src/App.tsx]

    A shallow embedding of the two screen components of the quiz
    application: the [Question] screen (selection handling and the step to
    the next screen) and the [Summary] screen (grading).

    Conventions.
    - A JavaScript [number] that is used as a choice index is a [Z]; an
      array subscript and an array length are [nat].
    - A JavaScript array that may have missing entries (a subscript that
      is out of range or a hole reads as [undefined]) is a list of
      options: [None] is [undefined].
    - An exception is a value of [result]: [Throw TypeError] is what
      reading a property of [undefined] does.
    - Arrays that are passed by reference between screens live in a
      [store]; screens hold locations. *)

From Stdlib Require Import ZArith Lia.
From stdpp Require Import base list strings.

Open Scope Z_scope.
Open Scope nat_scope.

(** ** JavaScript values *)

Inductive Exn := TypeError.

Inductive result (A : Type) :=
| Ok (a : A)
| Throw (e : Exn).
Arguments Ok {A} a.
Arguments Throw {A} e.

Definition bind {A B} (r : result A) (k : A → result B) : result B :=
  match r with
  | Ok a => k a
  | Throw e => Throw e
  end.

Notation "'let!' x ':=' r 'in' k" := (bind r (fun x => k))
  (at level 10, x name, r at level 100, k at level 200).

(** [arr[i]]: [undefined] out of range and at a hole. *)
Definition js_get {A} (arr : list (option A)) (i : nat) : option A :=
  match arr !! i with
  | Some (Some v) => Some v
  | _ => None
  end.

(** [arr[i] = v]: overwrites in range, extends the array (leaving holes)
    out of range. *)
Definition js_set {A} (arr : list (option A)) (i : nat) (v : A) : list (option A) :=
  if decide (i < length arr) then <[i := Some v]> arr
  else arr ++ replicate (i - length arr) None ++ [Some v].

(** [arr.includes(v)] on an array of integers. *)
Fixpoint includes (arr : list Z) (v : Z) : bool :=
  match arr with
  | [] => false
  | x :: rest => (x =? v)%Z || includes rest v
  end.

(** [arr.every(f)]. *)
Fixpoint every {A} (f : A → bool) (arr : list A) : bool :=
  match arr with
  | [] => true
  | x :: rest => f x && every f rest
  end.

(** ** Data model *)

(** [type QuestionType = 'multiple-choice' | 'multiple-answer' | 'true-false'] *)
Inductive QuestionType := MultipleChoice | MultipleAnswer | TrueFalse.

(** [correct: number | number[]], with [Array.isArray] as the tag. *)
Inductive Correct :=
| SingleIndex (c : Z)
| IndexSet (cs : list Z).

Record QuestionData := {
  prompt : string;
  type : QuestionType;
  choices : list string;
  correct : Correct;
}.

Definition quizData : list QuestionData := [
  {| prompt := "Which of the following is a fruit?";
     type := MultipleChoice;
     choices := ["Carrot"; "Apple"; "Potato"; "Celery"];
     correct := SingleIndex 1 |};
  {| prompt := "Select all even numbers:";
     type := MultipleAnswer;
     choices := ["1"; "2"; "3"; "4"];
     correct := IndexSet [1; 3]%Z |};
  {| prompt := "The sky is blue.";
     type := TrueFalse;
     choices := ["False"; "True"];
     correct := SingleIndex 1 |}
].

(** ** The Summary screen: grading *)

Module Summary.

(** [getCorrect(correct, selected)]. The array branch tests
    [Array.isArray(selected)] first; the other branch calls
    [selected.includes] directly. *)
Definition getCorrect (correct : Correct) (selected : option (list Z)) : result bool :=
  match correct with
  | IndexSet cs =>
      Ok (match selected with
          | Some sel => (length cs =? length sel) && every (λ v, includes sel v) cs
          | None => false
          end)
  | SingleIndex c =>
      match selected with
      | Some sel => Ok (includes sel c)
      | None => Throw TypeError
      end
  end.

(** The callback of [data.reduce], run from subscript [i] with
    accumulator [acc]. *)
Fixpoint reduce (userAnswers : list (option (list Z)))
         (qs : list QuestionData) (i : nat) (acc : nat) : result nat :=
  match qs with
  | [] => Ok acc
  | q :: rest =>
      let! ok := getCorrect (correct q) (js_get userAnswers i) in
      reduce userAnswers rest (S i) (acc + (if ok then 1 else 0))
  end.

(** [const score = data.reduce(..., 0)] *)
Definition score (data : list QuestionData) (userAnswers : list (option (list Z)))
  : result nat :=
  reduce userAnswers data 0 0.

(** The denominator shown next to the score: [data.length]. *)
Definition total (data : list QuestionData) : nat := length data.

End Summary.

(** ** The Question screen: selection and the step to the next screen *)

(** Arrays of answers are objects: a screen holds a location of the
    store, and a new array object gets the next free location. *)
Abbreviation loc := nat (only parsing).
Abbreviation store := (list (list (option (list Z)))) (only parsing).

Definition deref (h : store) (l : loc) : list (option (list Z)) :=
  default [] (h !! l).

(** A new array object with the given contents. *)
Definition alloc (h : store) (arr : list (option (list Z))) : loc * store :=
  (length h, h ++ [arr]).

(** [l[i] = v], in place, on the array object at [l]. *)
Definition store_set (h : store) (l : loc) (i : nat) (v : list Z) : store :=
  <[l := js_set (deref h l) i v]> h.

Module Route.

(** [RootStackParamList]: the parameters of the two routes. *)
Record QuestionParams := {
  data : list QuestionData;
  index : nat;
  userAnswers : loc;
}.

Record SummaryParams := {
  summary_data : list QuestionData;
  summary_userAnswers : loc;
}.

End Route.

(** A mounted screen: its route parameters and, for a Question screen,
    its [selected] state ([useState<number[]>([])]). *)
Inductive Screen :=
| QuestionScreen (params : Route.QuestionParams) (selected : list Z)
| SummaryScreen (params : Route.SummaryParams).

(** The navigator: the store of array objects and the stack of mounted
    screens, the focused screen first. *)
Record Nav := {
  heap : store;
  routes : list Screen;
}.

Module Question.
Import Route.

(** [const question = data[index]] *)
Definition question (params : QuestionParams) : option QuestionData :=
  data params !! index params.

(** [question.type === 'multiple-answer'] *)
Definition isMultipleAnswer (q : QuestionData) : bool :=
  match type q with
  | MultipleAnswer => true
  | _ => false
  end.

(** [handleSelect(value)], as the function from the previous
    [selected] to the next one. *)
Definition handleSelect (q : QuestionData) (value : Z) (prev : list Z) : list Z :=
  if isMultipleAnswer q then
    if includes prev value then filter (λ v, v ≠ value) prev else prev ++ [value]
  else [value].

(** [disabled={selected.length === 0}] of the Next button. *)
Definition nextDisabled (selected : list Z) : bool :=
  length selected =? 0.

(** [handleNext()]: [updatedAnswers] is a new array with the entries of
    [userAnswers]; the selection is written into it at [index]; then push the next Question screen on top of this one, or
    replace this screen by the Summary screen. *)
Definition handleNext (h : store) (params : QuestionParams) (selected : list Z)
           (below : list Screen) : Nav :=
  let '(updatedAnswers, h0) := alloc h (deref h (userAnswers params)) in
  let h' := store_set h0 updatedAnswers (index params) selected in
  if index params + 1 <? length (data params) then
    {| heap := h';
       routes :=
         QuestionScreen {| data := data params;
                           index := index params + 1;
                           userAnswers := updatedAnswers |} []
         :: QuestionScreen params selected :: below |}
  else
    {| heap := h';
       routes :=
         SummaryScreen {| summary_data := data params;
                          summary_userAnswers := updatedAnswers |}
         :: below |}.

End Question.

(** ** The session as a transition system *)

(** What the user can do: press the button of choice [idx], press Next,
    or go back. Going back is the back action of the stack navigator,
    which [App] leaves enabled: [Stack.Navigator] is given no options,
    [handleNext] pushes the next Question screen on top of the stack and
    replaces the top route only by the Summary screen. *)
Inductive Event :=
| PressChoice (idx : nat)
| PressNext
| PressBack.

(** The back action: the focused screen is removed and the screen under
    it is focused again, as it was left; there is no going back from the
    only screen of the stack. *)
Definition goBack (h : store) (below : list Screen) : option Nav :=
  match below with
  | [] => None
  | _ :: _ => Some {| heap := h; routes := below |}
  end.

(** One event on the focused screen. [None]: the event is not offered
    (no such choice button, a disabled Next button, a screen without
    buttons, no screen to go back to, or a Question screen whose
    [data[index]] is undefined and so cannot render). *)
Definition step (nav : Nav) (ev : Event) : option Nav :=
  match routes nav with
  | QuestionScreen params selected :: below =>
      match Question.question params with
      | None => None
      | Some q =>
          match ev with
          | PressChoice idx =>
              if decide (idx < length (choices q)) then
                Some {| heap := heap nav;
                        routes :=
                          QuestionScreen params
                            (Question.handleSelect q (Z.of_nat idx) selected)
                          :: below |}
              else None
          | PressNext =>
              if Question.nextDisabled selected then None
              else Some (Question.handleNext (heap nav) params selected below)
          | PressBack => goBack (heap nav) below
          end
      end
  | SummaryScreen _ :: below =>
      match ev with
      | PressBack => goBack (heap nav) below
      | _ => None
      end
  | [] => None
  end.

Fixpoint run (nav : Nav) (evs : list Event) : option Nav :=
  match evs with
  | [] => Some nav
  | ev :: rest =>
      match step nav ev with
      | Some nav' => run nav' rest
      | None => None
      end
  end.

(** [initialParams={{ data: quizData, index: 0, userAnswers: [] }}] *)
Definition init (d : list QuestionData) : Nav :=
  {| heap := [[]];
     routes := [QuestionScreen {| Route.data := d; Route.index := 0;
                                  Route.userAnswers := 0 |} []] |}.

(** What the Summary screen shows for the focused route. *)
Definition summary_of (nav : Nav) : option (list QuestionData * list (option (list Z))) :=
  match routes nav with
  | SummaryScreen params :: _ =>
      Some (Route.summary_data params, deref (heap nav) (Route.summary_userAnswers params))
  | _ => None
  end.

(** ** The session, as the specification words it *)

(** The states of the specification's state machine. *)
Inductive Phase :=
| AwaitingSelection (position : nat)
| Graded.

(** The state that a navigator is in: read off the focused screen. *)
Definition phase (nav : Nav) : option Phase :=
  match routes nav with
  | QuestionScreen params _ :: _ => Some (AwaitingSelection (Route.index params))
  | SummaryScreen _ :: _ => Some Graded
  | [] => None
  end.

(** The Answer Set that the focused screen holds. *)
Definition answerSet (nav : Nav) : list (option (list Z)) :=
  match routes nav with
  | QuestionScreen params _ :: _ => deref (heap nav) (Route.userAnswers params)
  | SummaryScreen params :: _ => deref (heap nav) (Route.summary_userAnswers params)
  | [] => []
  end.

(** The Selection Tracker of the focused screen. *)
Definition tracker (nav : Nav) : list Z :=
  match routes nav with
  | QuestionScreen _ selected :: _ => selected
  | _ => []
  end.

(** The number of commits in a sequence of events. *)
Fixpoint commits (evs : list Event) : nat :=
  match evs with
  | [] => 0
  | PressNext :: rest => S (commits rest)
  | PressChoice _ :: rest => commits rest
  | PressBack :: rest => commits rest
  end.

(** How many questions are behind the focused screen. *)
Definition progress (nav : Nav) : nat :=
  match routes nav with
  | QuestionScreen params _ :: _ => Route.index params
  | SummaryScreen params :: _ => length (Route.summary_data params)
  | [] => 0
  end.

(** What holds of every navigator of a session on the questions [d]. *)
Definition session_inv (d : list QuestionData) (nav : Nav) : Prop :=
  match routes nav with
  | QuestionScreen params _ :: _ =>
      Route.data params = d ∧ Route.index params < length d ∧
      Route.userAnswers params < length (heap nav) ∧
      length (deref (heap nav) (Route.userAnswers params)) = Route.index params
  | SummaryScreen params :: _ =>
      Route.summary_data params = d ∧
      Route.summary_userAnswers params < length (heap nav) ∧
      length (deref (heap nav) (Route.summary_userAnswers params)) = length d
  | [] => False
  end.

(** Selections are kept without duplicates, and no entry of the Answer
    Set is missing. *)
Definition answers_inv (nav : Nav) : Prop :=
  NoDup (tracker nav) ∧
  Forall (λ entry, ∃ sel, entry = Some sel ∧ NoDup sel ∧ sel ≠ []) (answerSet nav).

(** Choose the first choice and proceed, [n] times over. *)
Fixpoint answer_first (n : nat) : list Event :=
  match n with
  | 0 => []
  | S n' => PressChoice 0 :: PressNext :: answer_first n'
  end.

(** A session on the built-in questions with every answer right. *)
Definition quiz_events : list Event :=
  [PressChoice 1; PressNext; PressChoice 1; PressChoice 3; PressNext;
   PressChoice 1; PressNext].

Definition quiz_final : Nav :=
  Eval vm_compute in default (init []) (run (init quizData) quiz_events).

(** A Question screen whose Answer Set already has an entry at its own
    position, before and after Next is pressed. *)
Definition overwrite_before : Nav :=
  {| heap := [[Some [0]%Z; Some [2]%Z]];
     routes := [QuestionScreen {| Route.data := quizData; Route.index := 1;
                                  Route.userAnswers := 0 |} [1; 3]%Z] |}.

Definition overwrite_after : Nav :=
  Eval vm_compute in default overwrite_before (step overwrite_before PressNext).

(** ** The report of the grading, as the specification words it *)

(** Whether the question is graded correct against the entry. *)
Definition isCorrect (q : QuestionData) (selected : option (list Z)) : bool :=
  match Summary.getCorrect (correct q) selected with
  | Ok ok => ok
  | Throw _ => false
  end.

(** [perQuestion]: the ordered sequence of booleans. *)
Definition perQuestion (data : list QuestionData) (userAnswers : list (option (list Z)))
  : list bool :=
  imap (λ i q, isCorrect q (js_get userAnswers i)) data.

(** The count of correct questions. *)
Definition countCorrect (data : list QuestionData) (userAnswers : list (option (list Z)))
  : nat :=
  length (filter (λ ok, ok = true) (perQuestion data userAnswers)).

(** No question with a single-index [correct] lacks its entry. *)
Definition answered (data : list QuestionData) (userAnswers : list (option (list Z)))
  : Prop :=
  ∀ i q c, data !! i = Some q → correct q = SingleIndex c →
           is_Some (js_get userAnswers i).

(** ** What the screens render *)

(** The style of a choice line of the Summary screen: the default; with
    [fontWeight: 'bold']; with [textDecorationLine: 'line-through']. *)
Inductive Style := Plain | Bold | LineThrough.

Module SummaryView.

(** [userAnswers[i]?.includes(idx)]: [undefined] when the entry is
    missing. *)
Definition userSelected (userAnswers : list (option (list Z))) (i idx : nat)
  : option bool :=
  match js_get userAnswers i with
  | Some sel => Some (includes sel (Z.of_nat idx))
  | None => None
  end.

(** [Array.isArray(q.correct) ? q.correct.includes(idx) : q.correct === idx] *)
Definition isCorrect (q : QuestionData) (idx : nat) : bool :=
  match correct q with
  | IndexSet cs => includes cs (Z.of_nat idx)
  | SingleIndex c => (c =? Z.of_nat idx)%Z
  end.

(** A [boolean | undefined] as a condition: [undefined] is falsy. *)
Definition truthy (v : option bool) : bool := default false v.

(** The [if ... else if ...] that sets the style of one choice line. *)
Definition choiceStyle (userSelected : option bool) (isCorrect : bool) : Style :=
  if truthy userSelected && isCorrect then Bold
  else if truthy userSelected && negb isCorrect then LineThrough
  else Plain.

(** [q.choices.map((choice, idx) => ...)] for the question at [i]. *)
Definition questionStyles (userAnswers : list (option (list Z))) (i : nat)
           (q : QuestionData) : list Style :=
  imap (λ idx _, choiceStyle (userSelected userAnswers i idx) (isCorrect q idx))
       (choices q).

Record View := {
  shownScore : nat;
  shownTotal : nat;
  lines : list (list Style);
}.

(** The Summary component: the score is computed first, then the lines
    are laid out. *)
Definition render (data : list QuestionData) (userAnswers : list (option (list Z)))
  : result View :=
  let! score := Summary.score data userAnswers in
  Ok {| shownScore := score;
        shownTotal := length data;
        lines := imap (questionStyles userAnswers) data |}.

End SummaryView.

Module QuestionView.

Record View := {
  shownPrompt : string;
  buttons : list (string * bool);
  nextIsDisabled : bool;
}.

(** The Question component: [question.type] is read first, which throws
    when [data[index]] is undefined; each choice button carries whether
    it is drawn selected ([selected.includes(idx)]). *)
Definition render (params : Route.QuestionParams) (selected : list Z) : result View :=
  match Question.question params with
  | None => Throw TypeError
  | Some q =>
      Ok {| shownPrompt := prompt q;
            buttons := imap (λ idx choice, (choice, includes selected (Z.of_nat idx)))
                            (choices q);
            nextIsDisabled := Question.nextDisabled selected |}
  end.

End QuestionView.

(** ** Selections that the buttons of a question can produce *)

(** No duplicates, every member the index of a choice, and at most one
    member unless the question is multiple-answer. *)
Definition valid_selection (q : QuestionData) (sel : list Z) : Prop :=
  NoDup sel ∧
  (∀ v, v ∈ sel → (0 ≤ v < Z.of_nat (length (choices q)))%Z) ∧
  (type q ≠ MultipleAnswer → length sel ≤ 1).

(** Every selection on the focused screen and in its Answer Set is one
    that the buttons of its question can produce, and committed ones are
    not empty. *)
Definition selections_inv (d : list QuestionData) (nav : Nav) : Prop :=
  (∀ params selected below q,
     routes nav = QuestionScreen params selected :: below →
     d !! Route.index params = Some q → valid_selection q selected) ∧
  (∀ i entry, answerSet nav !! i = Some entry →
     ∃ sel q, entry = Some sel ∧ d !! i = Some q ∧
              valid_selection q sel ∧ sel ≠ []).

(** The screens under a screen whose Answer Set is [arr]: Question
    screens only, one for each entry of [arr], the topmost for the last
    entry. Each holds the committed selection, which is that entry, and
    the Answer Set that [arr] extends by it. *)
Fixpoint below_inv (d : list QuestionData) (h : store)
         (arr : list (option (list Z))) (below : list Screen) : Prop :=
  match below with
  | [] => arr = []
  | QuestionScreen params selected :: rest =>
      Route.data params = d ∧
      Route.userAnswers params < length h ∧
      length (deref h (Route.userAnswers params)) = Route.index params ∧
      arr = deref h (Route.userAnswers params) ++ [Some selected] ∧
      (∃ q, d !! Route.index params = Some q ∧
            valid_selection q selected ∧ selected ≠ []) ∧
      below_inv d h (deref h (Route.userAnswers params)) rest
  | SummaryScreen _ :: _ => False
  end.

(** What holds of the whole stack in a session on the questions [d],
    whichever way the focused screen was reached. *)
Definition stack_inv (d : list QuestionData) (nav : Nav) : Prop :=
  match routes nav with
  | QuestionScreen params selected :: below =>
      Route.data params = d ∧ Route.index params < length d ∧
      Route.userAnswers params < length (heap nav) ∧
      length (deref (heap nav) (Route.userAnswers params)) = Route.index params ∧
      (∀ q, d !! Route.index params = Some q → valid_selection q selected) ∧
      below_inv d (heap nav) (deref (heap nav) (Route.userAnswers params)) below
  | SummaryScreen params :: below =>
      Route.summary_data params = d ∧
      Route.summary_userAnswers params < length (heap nav) ∧
      ∃ arr selected q,
        deref (heap nav) (Route.summary_userAnswers params) = arr ++ [Some selected] ∧
        S (length arr) = length d ∧ d !! length arr = Some q ∧
        valid_selection q selected ∧ selected ≠ [] ∧
        below_inv d (heap nav) arr below
  | [] => False
  end.

(** The session [quiz_events] followed by going back from the Summary
    screen, and then by another answer to the second question and to the
    third. *)
Definition quiz_back : Nav :=
  Eval vm_compute in default (init []) (step quiz_final PressBack).

Definition quiz_events_again : list Event :=
  [PressChoice 3; PressNext; PressChoice 0; PressNext].

Definition quiz_revised : Nav :=
  Eval vm_compute in default (init []) (run quiz_back quiz_events_again).

(** The session [quiz_events] in two parts, and the navigator between
    them. *)
Definition quiz_events_first : list Event := [PressChoice 1; PressNext].

Definition quiz_events_rest : list Event :=
  [PressChoice 1; PressChoice 3; PressNext; PressChoice 1; PressNext].

Definition quiz_after_first : Nav :=
  Eval vm_compute in default (init []) (run (init quizData) quiz_events_first).

(** The second and the third of the built-in questions. *)
Definition evenNumbers : QuestionData :=
  {| prompt := "Select all even numbers:"; type := MultipleAnswer;
     choices := ["1"; "2"; "3"; "4"]; correct := IndexSet [1; 3]%Z |}.

Definition skyIsBlue : QuestionData :=
  {| prompt := "The sky is blue."; type := TrueFalse;
     choices := ["False"; "True"]; correct := SingleIndex 1 |}.

(** Pressing the choices [values] one after the other. *)
Definition press_all (q : QuestionData) (prev : list Z) (values : list Z) : list Z :=
  foldl (λ sel v, Question.handleSelect q v sel) prev values.

(** * Properties *)

(** ** Arrays *)

Section Arrays.

Lemma includes_elem_of (arr : list Z) (v : Z) : includes arr v = true ↔ v ∈ arr.
Proof.
  induction arr as [|x rest IH]; simpl.
  - split; [discriminate | intros H; inversion H].
  - rewrite orb_true_iff, IH, Z.eqb_eq, elem_of_cons.
    split; (intros [Hx|Hr]; [left; congruence | by right]).
Qed.

Lemma includes_not_elem_of (arr : list Z) (v : Z) : includes arr v = false ↔ v ∉ arr.
Proof.
  rewrite <- includes_elem_of. destruct (includes arr v); split; congruence.
Qed.

Lemma includes_decide (arr : list Z) (v : Z) : includes arr v = bool_decide (v ∈ arr).
Proof.
  destruct (includes arr v) eqn:E; symmetry.
  - apply bool_decide_eq_true, includes_elem_of, E.
  - apply bool_decide_eq_false, includes_not_elem_of, E.
Qed.

Lemma every_true_iff {A} (f : A → bool) (arr : list A) :
  every f arr = true ↔ ∀ x, x ∈ arr → f x = true.
Proof.
  induction arr as [|x rest IH]; simpl.
  - split; [intros _ y Hy; inversion Hy | done].
  - rewrite andb_true_iff, IH. split.
    + intros [Hx Hr] y Hy. apply elem_of_cons in Hy as [->|Hy]; auto.
    + intros H. split; [apply H; left | intros y Hy; apply H; by right].
Qed.

Context {A : Type}.
Implicit Types (arr : list (option A)) (v : A).

Lemma js_get_Some arr i v : js_get arr i = Some v ↔ arr !! i = Some (Some v).
Proof.
  unfold js_get. destruct (arr !! i) as [[w|]|]; split; congruence.
Qed.

Lemma js_get_ge arr i : length arr ≤ i → js_get arr i = None.
Proof.
  intros H. unfold js_get. by rewrite lookup_ge_None_2.
Qed.

Lemma length_js_set arr i v : length (js_set arr i v) = length arr `max` S i.
Proof.
  unfold js_set. case_decide.
  - rewrite length_insert. lia.
  - rewrite !length_app, length_replicate. simpl. lia.
Qed.

Lemma js_get_set_eq arr i v : js_get (js_set arr i v) i = Some v.
Proof.
  apply js_get_Some. unfold js_set. case_decide.
  - by apply list_lookup_insert_eq.
  - rewrite lookup_app_r by lia.
    rewrite lookup_app_r by (rewrite length_replicate; lia).
    rewrite length_replicate.
    by replace (i - length arr - (i - length arr)) with 0 by lia.
Qed.

Lemma js_get_set_ne arr i j v : i ≠ j → js_get (js_set arr i v) j = js_get arr j.
Proof.
  intros Hne. unfold js_get, js_set. case_decide as Hlt.
  - by rewrite list_lookup_insert_ne.
  - destruct (decide (j < length arr)) as [Hj|Hj].
    + by rewrite lookup_app_l.
    + rewrite (lookup_ge_None_2 arr j) by lia.
      rewrite lookup_app_r by lia.
      destruct (decide (j - length arr < i - length arr)) as [Hh|Hh].
      * rewrite lookup_app_l by (rewrite length_replicate; lia).
        by rewrite lookup_replicate_2.
      * rewrite lookup_app_r by (rewrite length_replicate; lia).
        rewrite length_replicate.
        rewrite lookup_ge_None_2; [done | simpl; lia].
Qed.

(** A dense array: one defined entry per position. *)
Lemma js_get_dense (sels : list A) i : js_get (Some <$> sels) i = sels !! i.
Proof.
  unfold js_get. rewrite list_lookup_fmap. by destruct (sels !! i).
Qed.

End Arrays.

(** ** Grading one question *)

Section GetCorrect.
Import Summary.

Lemma getCorrect_single (c : Z) (sel : list Z) :
  getCorrect (SingleIndex c) (Some sel) = Ok (bool_decide (c ∈ sel)).
Proof. simpl. by rewrite includes_decide. Qed.

Lemma getCorrect_set_true (cs sel : list Z) :
  getCorrect (IndexSet cs) (Some sel) = Ok true ↔
  length cs = length sel ∧ ∀ x, x ∈ cs → x ∈ sel.
Proof.
  simpl. split.
  - intros [= H]. apply andb_true_iff in H as [Hlen Hall].
    apply Nat.eqb_eq in Hlen. split; [done|].
    intros x Hx. apply includes_elem_of.
    by apply (proj1 (every_true_iff _ _) Hall).
  - intros [Hlen Hall]. f_equal. apply andb_true_iff. split.
    + by apply Nat.eqb_eq.
    + apply every_true_iff. intros x Hx. by apply includes_elem_of, Hall.
Qed.

(** With duplicate-free arrays, equal length and inclusion is equality
    of the two sets. *)
Lemma same_length_incl_same_members (cs sel : list Z) :
  NoDup cs → NoDup sel →
  (length cs = length sel ∧ ∀ x, x ∈ cs → x ∈ sel) ↔ (∀ x, x ∈ sel ↔ x ∈ cs).
Proof.
  intros Hcs Hsel. split.
  - intros [Hlen Hincl].
    assert (cs ≡ₚ sel) as Hperm.
    { apply submseteq_length_Permutation; [by apply NoDup_submseteq | lia]. }
    intros x. by rewrite Hperm.
  - intros Hsame.
    assert (sel ≡ₚ cs) as Hperm by by apply NoDup_Permutation.
    split; [by rewrite Hperm | intros x; apply Hsame].
Qed.

End GetCorrect.

(** ** Grading the whole quiz *)

Section Score.
Import Summary.

Lemma reduce_count (userAnswers : list (option (list Z))) (qs : list QuestionData) :
  ∀ i acc,
    (∀ j q c, qs !! j = Some q → correct q = SingleIndex c →
              is_Some (js_get userAnswers (i + j))) →
    reduce userAnswers qs i acc =
    Ok (acc + length (filter (λ ok, ok = true)
                        (imap (λ j q, isCorrect q (js_get userAnswers (i + j))) qs))).
Proof.
  induction qs as [|q rest IH]; intros i acc Hpresent.
  - simpl. f_equal. lia.
  - assert (∃ ok, getCorrect (correct q) (js_get userAnswers i) = Ok ok) as [ok Hok].
    { destruct (correct q) as [c|cs] eqn:Hc; [|by eexists].
      destruct (Hpresent 0 q c eq_refl Hc) as [sel Hsel].
      rewrite Nat.add_0_r in Hsel. rewrite Hsel. by eexists. }
    cbn [reduce]. rewrite Hok. cbn [bind].
    rewrite IH.
    2:{ intros j q' c Hj Hc. replace (S i + j) with (i + S j) by lia.
        by apply (Hpresent (S j) q' c). }
    rewrite imap_cons.
    rewrite (imap_ext (_ ∘ S) (λ j q', isCorrect q' (js_get userAnswers (S i + j)))).
    2:{ intros j q' _. simpl. by replace (i + S j) with (S (i + j)) by lia. }
    assert (isCorrect q (js_get userAnswers (i + 0)) = ok) as ->.
    { unfold isCorrect. by rewrite Nat.add_0_r, Hok. }
    rewrite filter_cons.
    destruct ok; [rewrite decide_True by done | rewrite decide_False by done];
      simpl; f_equal; lia.
Qed.

Lemma score_count (data : list QuestionData) (userAnswers : list (option (list Z))) :
  answered data userAnswers →
  score data userAnswers = Ok (countCorrect data userAnswers).
Proof.
  intros Hans. unfold score. rewrite reduce_count; [done|].
  intros j q c. apply Hans.
Qed.

Lemma answered_dense (data : list QuestionData) (sels : list (list Z)) :
  length data ≤ length sels → answered data (Some <$> sels).
Proof.
  intros Hlen i q c Hq _. rewrite js_get_dense.
  apply lookup_lt_is_Some. apply lookup_lt_Some in Hq. lia.
Qed.

Lemma length_perQuestion (data : list QuestionData) userAnswers :
  length (perQuestion data userAnswers) = length data.
Proof. apply length_imap. Qed.

End Score.

(** ** Selecting *)

Section Select.
Import Question.

Lemma handleSelect_single q (value : Z) (prev : list Z) :
  isMultipleAnswer q = false → handleSelect q value prev = [value].
Proof. intros H. unfold handleSelect. by rewrite H. Qed.

Lemma handleSelect_multi_present q (value : Z) (prev : list Z) :
  isMultipleAnswer q = true → value ∈ prev →
  handleSelect q value prev = filter (λ v, v ≠ value) prev.
Proof.
  intros Hq Hin. unfold handleSelect. rewrite Hq.
  by rewrite (proj2 (includes_elem_of prev value) Hin).
Qed.

Lemma handleSelect_multi_absent q (value : Z) (prev : list Z) :
  isMultipleAnswer q = true → value ∉ prev →
  handleSelect q value prev = prev ++ [value].
Proof.
  intros Hq Hin. unfold handleSelect. rewrite Hq.
  by rewrite (proj2 (includes_not_elem_of prev value) Hin).
Qed.

Lemma filter_ne_absent (value : Z) (prev : list Z) :
  value ∉ prev → filter (λ v, v ≠ value) prev = prev.
Proof.
  induction prev as [|x rest IH]; intros Hnot; [done|].
  apply not_elem_of_cons in Hnot as [Hx Hrest].
  rewrite filter_cons_True by congruence. by rewrite IH.
Qed.

Lemma handleSelect_NoDup q (value : Z) (prev : list Z) :
  NoDup prev → NoDup (handleSelect q value prev).
Proof.
  intros Hnd. unfold handleSelect.
  destruct (isMultipleAnswer q); [|apply NoDup_singleton].
  destruct (includes prev value) eqn:E.
  - by apply NoDup_filter.
  - apply includes_not_elem_of in E. apply NoDup_app. split; [done|]. split.
    + intros x Hx Hx'. apply list_elem_of_singleton in Hx'. by subst.
    + apply NoDup_singleton.
Qed.

End Select.

(** ** The store and the step to the next screen *)

Section Store.
Implicit Types (h : store) (arr : list (option (list Z))).

Lemma deref_lookup h l arr : h !! l = Some arr → deref h l = arr.
Proof. intros H. unfold deref. by rewrite H. Qed.

Lemma deref_alloc h arr : deref (h ++ [arr]) (length h) = arr.
Proof.
  apply deref_lookup. rewrite lookup_app_r by lia.
  by rewrite Nat.sub_diag.
Qed.

Lemma deref_old h arr l : l < length h → deref (h ++ [arr]) l = deref h l.
Proof. intros H. unfold deref. by rewrite lookup_app_l. Qed.

Lemma store_set_alloc h arr i v :
  store_set (h ++ [arr]) (length h) i v = h ++ [js_set arr i v].
Proof.
  unfold store_set. rewrite deref_alloc.
  rewrite insert_app_r_alt by lia. by rewrite Nat.sub_diag.
Qed.

End Store.

Section HandleNext.
Import Route Question.

Lemma handleNext_heap h params selected below :
  heap (handleNext h params selected below) =
  h ++ [js_set (deref h (userAnswers params)) (index params) selected].
Proof.
  unfold handleNext, alloc. rewrite store_set_alloc.
  by destruct (index params + 1 <? length (data params)).
Qed.

Lemma handleNext_push h params selected below :
  index params + 1 < length (data params) →
  routes (handleNext h params selected below) =
  QuestionScreen {| data := data params; index := index params + 1;
                    userAnswers := length h |} []
  :: QuestionScreen params selected :: below.
Proof.
  intros Hlt. unfold handleNext, alloc.
  by rewrite (proj2 (Nat.ltb_lt _ _) Hlt).
Qed.

Lemma handleNext_replace h params selected below :
  ¬ index params + 1 < length (data params) →
  routes (handleNext h params selected below) =
  SummaryScreen {| summary_data := data params; summary_userAnswers := length h |}
  :: below.
Proof.
  intros Hge. unfold handleNext, alloc.
  by rewrite (proj2 (Nat.ltb_ge _ _)) by lia.
Qed.

(** The Answer Set that the next screen receives. *)
Lemma handleNext_answerSet h params selected below :
  answerSet (handleNext h params selected below) =
  js_set (deref h (userAnswers params)) (index params) selected.
Proof.
  unfold answerSet. rewrite handleNext_heap.
  destruct (decide (index params + 1 < length (data params))) as [Hlt|Hge].
  - rewrite handleNext_push by done. apply deref_alloc.
  - rewrite handleNext_replace by done. apply deref_alloc.
Qed.

End HandleNext.

(** ** The session *)

Section Session.
Import Route Question.
Variable d : list QuestionData.

Lemma init_inv : d ≠ [] → session_inv d (init d).
Proof.
  intros Hd. unfold session_inv, init. simpl.
  destruct d; [done|]. simpl. repeat split; lia.
Qed.

(** A press keeps the invariant, and only Next moves on, by one. *)
Lemma step_inv nav ev nav' :
  session_inv d nav → ev ≠ PressBack → step nav ev = Some nav' →
  session_inv d nav' ∧
  progress nav' = progress nav + commits [ev].
Proof.
  intros Hinv Hpress Hstep. unfold session_inv in Hinv. unfold step in Hstep.
  unfold progress at 2.
  destruct (routes nav) as [|[params selected|params] below] eqn:Hroutes;
    [done| |by destruct ev].
  destruct Hinv as (Hdata & Hidx & Hloc & Hlen).
  destruct (question params) as [q|]; [|done].
  destruct ev as [idx| |]; [| |done].
  - case_decide; [|done]. injection Hstep as <-.
    unfold session_inv, progress. simpl. split; [done | lia].
  - destruct (nextDisabled selected); [done|]. injection Hstep as <-.
    unfold session_inv, progress. rewrite handleNext_heap.
    destruct (decide (index params + 1 < length (data params))) as [Hlt|Hge].
    + rewrite handleNext_push by done. simpl.
      rewrite deref_alloc, length_js_set, length_app. simpl.
      rewrite Hdata in Hlt. repeat split; (done || lia).
    + rewrite handleNext_replace by done. simpl.
      rewrite deref_alloc, length_js_set, length_app. simpl.
      rewrite Hdata in Hge |- *. repeat split; (done || lia).
Qed.

Lemma commits_app evs1 evs2 : commits (evs1 ++ evs2) = commits evs1 + commits evs2.
Proof.
  induction evs1 as [|[idx| |] rest IH]; simpl; lia.
Qed.

Lemma run_app evs1 evs2 nav :
  run nav (evs1 ++ evs2) =
  match run nav evs1 with Some nav1 => run nav1 evs2 | None => None end.
Proof.
  revert nav. induction evs1 as [|ev rest IH]; intros nav; [done|].
  simpl. destruct (step nav ev); [apply IH | done].
Qed.

(** Under the invariant the state is read off the progress. *)
Lemma phase_of_progress nav :
  session_inv d nav →
  progress nav ≤ length d ∧
  (progress nav < length d →
   phase nav = Some (AwaitingSelection (progress nav)) ∧
   length (answerSet nav) = progress nav) ∧
  (progress nav = length d →
   phase nav = Some Graded ∧ length (answerSet nav) = length d).
Proof.
  unfold session_inv, progress, phase, answerSet.
  destruct (routes nav) as [|[params selected|params] below]; [done| |].
  - intros (Hdata & Hidx & Hloc & Hlen). repeat split; try done; lia.
  - intros (Hdata & Hloc & Hlen). rewrite Hdata. repeat split; try done; lia.
Qed.

(** The Summary screen has no button: only going back is left. *)
Lemma graded_no_press nav ev :
  phase nav = Some Graded → ev ≠ PressBack → step nav ev = None.
Proof.
  unfold phase, step. intros Hph Hpress.
  destruct (routes nav) as [|[params selected|params] below]; [done|done|].
  by destruct ev.
Qed.

Lemma tracker_handleNext h params selected below :
  tracker (handleNext h params selected below) = [].
Proof.
  unfold tracker, handleNext, alloc.
  by destruct (index params + 1 <? length (data params)).
Qed.

(** The first write at a position appends to the array. *)
Lemma js_set_end {A} (arr : list (option A)) (v : A) :
  js_set arr (length arr) v = arr ++ [Some v].
Proof.
  unfold js_set. rewrite decide_False by lia. by rewrite Nat.sub_diag.
Qed.

(** Choosing the first choice of each remaining question and
    proceeding arrives at the Summary screen. *)
Lemma answer_first_graded n : ∀ nav,
  Forall (λ q, choices q ≠ []) d →
  session_inv d nav → tracker nav = [] → progress nav + n = length d →
  ∃ nav', run nav (answer_first n) = Some nav' ∧ phase nav' = Some Graded.
Proof.
  induction n as [|n IH]; intros nav Hchoices Hinv Htr Hprog.
  - exists nav. split; [done|].
    by apply (phase_of_progress nav Hinv); lia.
  - pose proof Hinv as Hinv0.
    unfold session_inv in Hinv. unfold progress in Hprog. unfold tracker in Htr.
    destruct (routes nav) as [|[params selected|params] below] eqn:Hroutes;
      [done| |].
    2:{ destruct Hinv as (Hdata & _). rewrite Hdata in Hprog. lia. }
    destruct Hinv as (Hdata & Hidx & Hloc & Hlen). subst selected.
    destruct (lookup_lt_is_Some_2 d (index params) Hidx) as [q Hq].
    assert (0 < length (choices q)) as Hnonempty.
    { pose proof (proj1 (Forall_lookup _ _) Hchoices _ _ Hq) as Hne.
      simpl in Hne. destruct (choices q); [done | simpl; lia]. }
    set (nav1 := {| heap := heap nav;
                    routes := QuestionScreen params [0%Z] :: below |}).
    assert (step nav (PressChoice 0) = Some nav1) as Hstep1.
    { unfold step, question. rewrite Hroutes, Hdata, Hq.
      rewrite decide_True by done. unfold nav1, handleSelect.
      by destruct (isMultipleAnswer q). }
    set (nav2 := handleNext (heap nav) params [0%Z] below).
    assert (step nav1 PressNext = Some nav2) as Hstep2.
    { unfold step, question. simpl. by rewrite Hdata, Hq. }
    destruct (step_inv nav (PressChoice 0) nav1 Hinv0 ltac:(discriminate) Hstep1)
      as [Hinv1 Hp1].
    destruct (step_inv nav1 PressNext nav2 Hinv1 ltac:(discriminate) Hstep2)
      as [Hinv2 Hp2].
    destruct (IH nav2 Hchoices Hinv2) as (nav' & Hrun & Hph).
    { apply tracker_handleNext. }
    { rewrite Hp2, Hp1. unfold progress at 1. rewrite Hroutes. simpl. lia. }
    exists nav'. split; [|done].
    simpl. rewrite Hstep1, Hstep2. exact Hrun.
Qed.

End Session.

(** ** When grading throws *)

Section Throws.
Import Summary.

Lemma reduce_throws (userAnswers : list (option (list Z))) (qs : list QuestionData) :
  ∀ i acc j q c,
    qs !! j = Some q → correct q = SingleIndex c →
    js_get userAnswers (i + j) = None →
    reduce userAnswers qs i acc = Throw TypeError.
Proof.
  induction qs as [|q0 rest IH]; intros i acc j q c Hq Hc Hnone; [done|].
  cbn [reduce].
  destruct (getCorrect (correct q0) (js_get userAnswers i)) as [ok|[]] eqn:Hok;
    [|done].
  cbn [bind]. destruct j as [|j].
  - injection Hq as ->. rewrite Nat.add_0_r in Hnone.
    by rewrite Hc, Hnone in Hok.
  - apply (IH (S i) _ j q c); [done | done |].
    by replace (S i + j) with (i + S j) by lia.
Qed.

Lemma score_throws data userAnswers i q c :
  data !! i = Some q → correct q = SingleIndex c → js_get userAnswers i = None →
  score data userAnswers = Throw TypeError.
Proof.
  intros Hq Hc Hnone. by apply (reduce_throws userAnswers data 0 0 i q c).
Qed.

End Throws.

(** ** Steps of the focused Question screen *)

Section Steps.
Import Route Question.

Lemma nextDisabled_nil selected : nextDisabled selected = true ↔ selected = [].
Proof.
  unfold nextDisabled. rewrite Nat.eqb_eq. by destruct selected.
Qed.

Lemma step_next_Some nav nav' :
  step nav PressNext = Some nav' →
  ∃ params selected below q,
    routes nav = QuestionScreen params selected :: below ∧
    question params = Some q ∧ selected ≠ [] ∧
    nav' = handleNext (heap nav) params selected below.
Proof.
  unfold step.
  destruct (routes nav) as [|[params selected|params] below]; [done| |done].
  destruct (question params) as [q|] eqn:Hq; [|done].
  destruct (nextDisabled selected) eqn:Hdis; [done|].
  intros [= <-]. exists params, selected, below, q. repeat split; [done|].
  intros Hnil. apply nextDisabled_nil in Hnil. congruence.
Qed.

Lemma step_choice_phase nav idx nav' :
  step nav (PressChoice idx) = Some nav' → phase nav' = phase nav.
Proof.
  unfold step, phase.
  destruct (routes nav) as [|[params selected|params] below]; [done| |done].
  destruct (question params) as [q|]; [|done].
  case_decide; [|done]. by intros [= <-].
Qed.

End Steps.

(** * The claims *)



(** C2. A question whose [correct] is a set of indices is graded correct
    if and only if the selection has exactly the members of [correct]:
    the same number of members, every member of [correct] selected, and
    nothing else selected. Both are sets: arrays without duplicates. With
    [correct = {1,3}], the selection [{1,3}] is correct, [{1,3,2}] and
    [{1}] are not. *)
Theorem C2_index_set_exact_match (cs sel : list Z) :
  NoDup cs → NoDup sel →
  (Summary.getCorrect (IndexSet cs) (Some sel) = Ok true ↔ ∀ x, x ∈ sel ↔ x ∈ cs) ∧
  (Summary.getCorrect (IndexSet cs) (Some sel) = Ok true ↔
   length sel = length cs ∧ (∀ x, x ∈ cs → x ∈ sel) ∧ (∀ x, x ∈ sel → x ∈ cs)) ∧
  (Summary.getCorrect (IndexSet cs) (Some sel) = Ok false ↔ ¬ ∀ x, x ∈ sel ↔ x ∈ cs) ∧
  Summary.getCorrect (IndexSet [1; 3]%Z) (Some [1; 3]%Z) = Ok true ∧
  Summary.getCorrect (IndexSet [1; 3]%Z) (Some [1; 3; 2]%Z) = Ok false ∧
  Summary.getCorrect (IndexSet [1; 3]%Z) (Some [1]%Z) = Ok false.
Proof.
  intros Hcs Hsel.
  assert (Summary.getCorrect (IndexSet cs) (Some sel) = Ok true ↔
          ∀ x, x ∈ sel ↔ x ∈ cs) as Hiff.
  { rewrite getCorrect_set_true. by apply same_length_incl_same_members. }
  split; [exact Hiff|]. split; [|split; [|by repeat split]].
  - rewrite Hiff. split.
    + intros Hsame.
      destruct (proj2 (same_length_incl_same_members cs sel Hcs Hsel) Hsame)
        as [Hlen Hincl].
      repeat split; [done | done | intros x; apply Hsame].
    + intros (Hlen & Hincl & Hback) x. split; [apply Hback | apply Hincl].
  - rewrite <- Hiff. simpl.
    destruct ((length cs =? length sel) && every (λ v, includes sel v) cs);
      split; congruence.
Qed.

Lemma C2_index_set_exact_match_witness :
  NoDup [1; 3]%Z ∧ NoDup [3; 1]%Z ∧
  (Summary.getCorrect (IndexSet [1; 3]%Z) (Some [3; 1]%Z) = Ok true ↔
   ∀ x, x ∈ [3; 1]%Z ↔ x ∈ [1; 3]%Z).
Proof.
  assert (NoDup [1; 3]%Z) as H13 by (apply (bool_decide_unpack _); reflexivity).
  assert (NoDup [3; 1]%Z) as H31 by (apply (bool_decide_unpack _); reflexivity).
  split; [exact H13|]. split; [exact H31|].
  exact (proj1 (C2_index_set_exact_match [1; 3]%Z [3; 1]%Z H13 H31)).
Defined.

(** C3. A question whose [correct] is a single index is graded correct if
    and only if that index is a member of the selection: membership, not
    equality with the selection. With [correct = 1], the selections [{1}]
    and [{0,1}] are correct and [{0}] is not. *)
Theorem C3_single_index_membership (c : Z) (sel : list Z) :
  (Summary.getCorrect (SingleIndex c) (Some sel) = Ok true ↔ c ∈ sel) ∧
  (Summary.getCorrect (SingleIndex c) (Some sel) = Ok false ↔ c ∉ sel) ∧
  Summary.getCorrect (SingleIndex 1) (Some [1]%Z) = Ok true ∧
  Summary.getCorrect (SingleIndex 1) (Some [0; 1]%Z) = Ok true ∧
  Summary.getCorrect (SingleIndex 1) (Some [0]%Z) = Ok false.
Proof.
  rewrite getCorrect_single. repeat split; try done.
  - intros [= H]. by apply bool_decide_eq_true in H.
  - intros H. f_equal. by apply bool_decide_eq_true.
  - intros [= H]. by apply bool_decide_eq_false in H.
  - intros H. f_equal. by apply bool_decide_eq_false.
Qed.

(** C4. For every question list and every answer set that has an entry
    for each question, grading returns a score, the score is the count of
    questions graded correct, and the total is the length of the question
    list. For the three built-in questions, the answer set
    [[1],[1,3],[1]] scores 3 of 3 with every question correct, and
    [[0],[1],[0]] scores 0 of 3 with every question incorrect. *)
Theorem C4_score_is_count_of_correct (data : list QuestionData) (sels : list (list Z)) :
  length data ≤ length sels →
  Summary.score data (Some <$> sels) = Ok (countCorrect data (Some <$> sels)) ∧
  Summary.total data = length data ∧
  length (perQuestion data (Some <$> sels)) = length data ∧
  (Summary.score quizData (Some <$> [[1]; [1; 3]; [1]]%Z) = Ok 3 ∧
   Summary.total quizData = 3 ∧
   perQuestion quizData (Some <$> [[1]; [1; 3]; [1]]%Z) = [true; true; true]) ∧
  (Summary.score quizData (Some <$> [[0]; [1]; [0]]%Z) = Ok 0 ∧
   Summary.total quizData = 3 ∧
   perQuestion quizData (Some <$> [[0]; [1]; [0]]%Z) = [false; false; false]).
Proof.
  intros Hlen. split; [|by repeat split; try apply length_perQuestion].
  apply score_count. by apply answered_dense.
Qed.

Lemma C4_score_is_count_of_correct_witness :
  length quizData ≤ length [[1]; [0; 1]; [0]]%Z ∧
  Summary.score quizData (Some <$> [[1]; [0; 1]; [0]]%Z) =
  Ok (countCorrect quizData (Some <$> [[1]; [0; 1]; [0]]%Z)).
Proof.
  assert (length quizData ≤ length [[1]; [0; 1]; [0]]%Z) as Hlen by (simpl; lia).
  split; [exact Hlen|].
  exact (proj1 (C4_score_is_count_of_correct quizData _ Hlen)).
Defined.

(** C8. On a question that is not multiple-answer (multiple-choice or
    true-false), selecting a choice makes the selection exactly that one
    choice, whatever was selected before; selecting [a] and then [b]
    leaves exactly [b]. *)
Theorem C8_single_select_replaces (q : QuestionData) (a b : Z) (prev : list Z) :
  type q ≠ MultipleAnswer →
  Question.handleSelect q a prev = [a] ∧
  Question.handleSelect q b (Question.handleSelect q a prev) = [b].
Proof.
  intros Hty.
  assert (Question.isMultipleAnswer q = false) as Hq.
  { unfold Question.isMultipleAnswer. by destruct (type q). }
  by rewrite !handleSelect_single.
Qed.

Lemma C8_single_select_replaces_witness :
  type {| prompt := "The sky is blue."; type := TrueFalse;
          choices := ["False"; "True"]; correct := SingleIndex 1 |} ≠ MultipleAnswer ∧
  Question.handleSelect
    {| prompt := "The sky is blue."; type := TrueFalse;
       choices := ["False"; "True"]; correct := SingleIndex 1 |} 1
    (Question.handleSelect
       {| prompt := "The sky is blue."; type := TrueFalse;
          choices := ["False"; "True"]; correct := SingleIndex 1 |} 0 [1]%Z) = [1]%Z.
Proof.
  split; [discriminate|].
  refine (proj2 (C8_single_select_replaces _ 0 1 [1]%Z _)). discriminate.
Defined.

(** C9. On a multiple-answer question, selecting a choice removes it from
    the selection when it is there and adds it when it is not; whether any
    other choice is selected does not change. *)
Theorem C9_multi_select_toggles (q : QuestionData) (x : Z) (prev : list Z) :
  type q = MultipleAnswer →
  (x ∈ prev → Question.handleSelect q x prev = filter (λ v, v ≠ x) prev ∧
              x ∉ Question.handleSelect q x prev) ∧
  (x ∉ prev → Question.handleSelect q x prev = prev ++ [x] ∧
              x ∈ Question.handleSelect q x prev) ∧
  (∀ y, y ≠ x → y ∈ Question.handleSelect q x prev ↔ y ∈ prev).
Proof.
  intros Hty.
  assert (Question.isMultipleAnswer q = true) as Hq.
  { unfold Question.isMultipleAnswer. by rewrite Hty. }
  split; [|split].
  - intros Hin. rewrite handleSelect_multi_present by done. split; [done|].
    rewrite list_elem_of_filter. by intros [Hne _].
  - intros Hnot. rewrite handleSelect_multi_absent by done. split; [done|].
    apply elem_of_app. right. by apply list_elem_of_singleton.
  - intros y Hne. destruct (decide (x ∈ prev)) as [Hin|Hnot].
    + rewrite handleSelect_multi_present by done.
      rewrite list_elem_of_filter. split; [by intros [_ H] | done].
    + rewrite handleSelect_multi_absent by done.
      rewrite elem_of_app, list_elem_of_singleton. split; [|by left].
      by intros [H|H].
Qed.

Lemma C9_multi_select_toggles_witness :
  type {| prompt := "Select all even numbers:"; type := MultipleAnswer;
          choices := ["1"; "2"; "3"; "4"]; correct := IndexSet [1; 3]%Z |}
  = MultipleAnswer ∧
  ∀ y : Z, y ≠ 3%Z →
    y ∈ Question.handleSelect
          {| prompt := "Select all even numbers:"; type := MultipleAnswer;
             choices := ["1"; "2"; "3"; "4"]; correct := IndexSet [1; 3]%Z |}
          3 [1; 3]%Z
    ↔ y ∈ [1; 3]%Z.
Proof.
  split; [reflexivity|].
  refine (proj2 (proj2 (C9_multi_select_toggles _ 3 [1; 3]%Z _))). reflexivity.
Defined.

(** C10. On a multiple-answer question, selecting the same choice twice
    in a row gives back the selection there was, as a set; and as an
    array up to the order of its entries when it had no duplicates. *)
Theorem C10_multi_toggle_twice (q : QuestionData) (x : Z) (prev : list Z) :
  type q = MultipleAnswer →
  (∀ y, y ∈ Question.handleSelect q x (Question.handleSelect q x prev) ↔ y ∈ prev) ∧
  (NoDup prev → Question.handleSelect q x (Question.handleSelect q x prev) ≡ₚ prev).
Proof.
  intros Hty.
  assert (Question.isMultipleAnswer q = true) as Hq.
  { unfold Question.isMultipleAnswer. by rewrite Hty. }
  assert (∀ y, y ∈ Question.handleSelect q x (Question.handleSelect q x prev)
               ↔ y ∈ prev) as Hset.
  { intros y. destruct (decide (x ∈ prev)) as [Hin|Hnot].
    - rewrite (handleSelect_multi_present q x prev) by done.
      rewrite handleSelect_multi_absent; [|done|].
      2:{ rewrite list_elem_of_filter. by intros [Hne _]. }
      rewrite elem_of_app, list_elem_of_filter, list_elem_of_singleton.
      split; [intros [[_ H]| ->]; done|].
      intros Hy. destruct (decide (y = x)); [by right | by left].
    - rewrite (handleSelect_multi_absent q x prev) by done.
      rewrite handleSelect_multi_present; [|done|].
      2:{ apply elem_of_app. right. by apply list_elem_of_singleton. }
      rewrite filter_app, filter_ne_absent by done.
      rewrite filter_cons_False by (by intros H). simpl.
      by rewrite app_nil_r. }
  split; [exact Hset|].
  intros Hnd. apply NoDup_Permutation; [|done|exact Hset].
  by do 2 apply handleSelect_NoDup.
Qed.

Lemma C10_multi_toggle_twice_witness :
  type {| prompt := "Select all even numbers:"; type := MultipleAnswer;
          choices := ["1"; "2"; "3"; "4"]; correct := IndexSet [1; 3]%Z |}
  = MultipleAnswer ∧
  ∀ y : Z,
    y ∈ Question.handleSelect
          {| prompt := "Select all even numbers:"; type := MultipleAnswer;
             choices := ["1"; "2"; "3"; "4"]; correct := IndexSet [1; 3]%Z |} 1
          (Question.handleSelect
             {| prompt := "Select all even numbers:"; type := MultipleAnswer;
                choices := ["1"; "2"; "3"; "4"]; correct := IndexSet [1; 3]%Z |}
             1 [1; 3]%Z)
    ↔ y ∈ [1; 3]%Z.
Proof.
  split; [reflexivity|].
  refine (proj1 (C10_multi_toggle_twice _ 1 [1; 3]%Z _)). reflexivity.
Defined.

(** C6. On a Question screen, of whatever question type, the Next button
    is disabled exactly when nothing is selected: pressing it does nothing
    exactly then, and it runs [handleNext] otherwise; so a commit only
    ever happens with a non-empty selection. *)
Theorem C6_next_disabled_iff_nothing_selected
        (nav : Nav) (params : Route.QuestionParams) (selected : list Z)
        (below : list Screen) (q : QuestionData) :
  routes nav = QuestionScreen params selected :: below →
  Question.question params = Some q →
  (Question.nextDisabled selected = true ↔ selected = []) ∧
  (step nav PressNext = None ↔ selected = []) ∧
  (selected ≠ [] →
   step nav PressNext = Some (Question.handleNext (heap nav) params selected below)) ∧
  (∀ nav', step nav PressNext = Some nav' → tracker nav ≠ []).
Proof.
  intros Hroutes Hq.
  assert (step nav PressNext =
          if Question.nextDisabled selected then None
          else Some (Question.handleNext (heap nav) params selected below)) as Hstep.
  { unfold step. by rewrite Hroutes, Hq. }
  split; [apply nextDisabled_nil|]. split; [|split].
  - rewrite Hstep, <- nextDisabled_nil.
    destruct (Question.nextDisabled selected); split; congruence.
  - intros Hne. rewrite Hstep.
    destruct (Question.nextDisabled selected) eqn:Hdis; [|done].
    by apply nextDisabled_nil in Hdis.
  - intros nav' Hnext.
    destruct (step_next_Some _ _ Hnext) as (p & sel & b & q' & Hr & _ & Hne & _).
    unfold tracker. by rewrite Hr.
Qed.

Lemma C6_next_disabled_iff_nothing_selected_witness :
  routes (init quizData)
  = QuestionScreen {| Route.data := quizData; Route.index := 0;
                      Route.userAnswers := 0 |} [] :: [] ∧
  Question.question {| Route.data := quizData; Route.index := 0;
                       Route.userAnswers := 0 |}
  = Some {| prompt := "Which of the following is a fruit?";
            type := MultipleChoice;
            choices := ["Carrot"; "Apple"; "Potato"; "Celery"];
            correct := SingleIndex 1 |} ∧
  (step (init quizData) PressNext = None ↔ @nil Z = []).
Proof.
  split; [reflexivity|]. split; [reflexivity|].
  refine (proj1 (proj2 (C6_next_disabled_iff_nothing_selected
                          (init quizData) _ [] [] _ _ _))); reflexivity.
Defined.

(** C7. A commit hands the next screen an Answer Set that holds the
    current selection at the current position, whatever was there before,
    and at every other position what the committing screen's Answer Set
    holds there. The write goes to a new array: every array that existed
    before the commit, the committing screen's own among them, is
    unchanged, and the committing screen, when it stays mounted, keeps its
    parameters. *)
Theorem C7_commit_writes_own_copy
        (nav nav' : Nav) (params : Route.QuestionParams) (selected : list Z)
        (below : list Screen) :
  routes nav = QuestionScreen params selected :: below →
  Route.userAnswers params < length (heap nav) →
  step nav PressNext = Some nav' →
  js_get (answerSet nav') (Route.index params) = Some selected ∧
  (∀ j, j ≠ Route.index params →
        js_get (answerSet nav') j = js_get (answerSet nav) j) ∧
  (∀ l, l < length (heap nav) → heap nav' !! l = heap nav !! l) ∧
  deref (heap nav') (Route.userAnswers params) = answerSet nav ∧
  (heap nav' !! length (heap nav) = Some (answerSet nav') ∧
   length (heap nav) ≠ Route.userAnswers params) ∧
  (phase nav' = Some Graded ∨
   ∃ next, routes nav' = next :: QuestionScreen params selected :: below).
Proof.
  intros Hroutes Hloc Hnext.
  destruct (step_next_Some _ _ Hnext) as (p & sel & b & q & Hr & _ & _ & ->).
  rewrite Hroutes in Hr. injection Hr as <- <- <-.
  rewrite handleNext_answerSet, handleNext_heap.
  assert (answerSet nav = deref (heap nav) (Route.userAnswers params)) as ->.
  { unfold answerSet. by rewrite Hroutes. }
  split; [apply js_get_set_eq|].
  split; [intros j Hj; by apply js_get_set_ne|].
  split; [intros l Hl; by apply lookup_app_l|].
  split; [by apply deref_old|].
  split.
  - split; [|lia]. rewrite lookup_app_r by lia. by rewrite Nat.sub_diag.
  - destruct (decide (Route.index params + 1 < length (Route.data params)))
      as [Hlt|Hge].
    + right. rewrite handleNext_push by done. by eexists.
    + left. unfold phase. by rewrite handleNext_replace.
Qed.

Lemma C7_commit_writes_own_copy_witness :
  routes overwrite_before
  = QuestionScreen {| Route.data := quizData; Route.index := 1;
                      Route.userAnswers := 0 |} [1; 3]%Z :: [] ∧
  0 < length (heap overwrite_before) ∧
  step overwrite_before PressNext = Some overwrite_after ∧
  js_get (answerSet overwrite_after) 1 = Some [1; 3]%Z ∧
  (∀ j, j ≠ 1 → js_get (answerSet overwrite_after) j
                = js_get (answerSet overwrite_before) j).
Proof.
  assert (routes overwrite_before
          = QuestionScreen {| Route.data := quizData; Route.index := 1;
                              Route.userAnswers := 0 |} [1; 3]%Z :: [])
    as Hroutes by reflexivity.
  assert (0 < length (heap overwrite_before)) as Hloc by (simpl; lia).
  assert (step overwrite_before PressNext = Some overwrite_after)
    as Hnext by reflexivity.
  split; [exact Hroutes|]. split; [exact Hloc|]. split; [exact Hnext|].
  pose proof (C7_commit_writes_own_copy overwrite_before overwrite_after
                _ _ _ Hroutes Hloc Hnext) as (Hset & Hframe & _).
  split; [exact Hset | exact Hframe].
Defined.

(** The session on the built-in questions with every answer right, end to
    end: the Summary screen is reached and shows 3 of 3. *)
Example quiz_session_scores_3_of_3 :
  phase quiz_final = Some Graded ∧
  answerSet quiz_final = [Some [1]; Some [1; 3]; Some [1]]%Z ∧
  Summary.score quizData (answerSet quiz_final) = Ok 3 ∧
  Summary.total quizData = 3.
Proof. by repeat split. Qed.


(** * Further properties of the code *)

(** ** The score *)

Section ScoreFacts.
Import Summary.

Lemma reduce_bounds (userAnswers : list (option (list Z))) (qs : list QuestionData) :
  ∀ i acc n, reduce userAnswers qs i acc = Ok n → acc ≤ n ≤ acc + length qs.
Proof.
  induction qs as [|q rest IH]; intros i acc n Hred.
  - injection Hred as <-. simpl. lia.
  - cbn [reduce] in Hred.
    destruct (getCorrect (correct q) (js_get userAnswers i)) as [ok|e]; [|done].
    cbn [bind] in Hred. apply IH in Hred. simpl. destruct ok; lia.
Qed.

Lemma score_bounds (data : list QuestionData) (userAnswers : list (option (list Z))) n :
  score data userAnswers = Ok n → n ≤ length data.
Proof. intros Hscore. apply reduce_bounds in Hscore. lia. Qed.

Lemma reduce_throws_inv (userAnswers : list (option (list Z))) (qs : list QuestionData) :
  ∀ i acc e, reduce userAnswers qs i acc = Throw e →
    ∃ j q c, qs !! j = Some q ∧ correct q = SingleIndex c ∧
             js_get userAnswers (i + j) = None.
Proof.
  induction qs as [|q0 rest IH]; intros i acc e Hred; [done|].
  cbn [reduce] in Hred.
  destruct (getCorrect (correct q0) (js_get userAnswers i)) as [ok|e'] eqn:Hok.
  - cbn [bind] in Hred. destruct (IH _ _ _ Hred) as (j & q & c & Hq & Hc & Hnone).
    exists (S j), q, c. repeat split; [done | done |].
    by replace (i + S j) with (S i + j) by lia.
  - exists 0, q0. unfold getCorrect in Hok.
    destruct (correct q0) as [c|cs]; [|done].
    exists c. rewrite Nat.add_0_r.
    destruct (js_get userAnswers i); [done | by repeat split].
Qed.

Lemma reduce_ext (ua ua' : list (option (list Z))) (qs : list QuestionData) :
  ∀ i acc,
    (∀ j, j < length qs → js_get ua (i + j) = js_get ua' (i + j)) →
    reduce ua qs i acc = reduce ua' qs i acc.
Proof.
  induction qs as [|q rest IH]; intros i acc Hsame; [done|].
  cbn [reduce].
  assert (js_get ua i = js_get ua' i) as ->.
  { specialize (Hsame 0). rewrite Nat.add_0_r in Hsame. apply Hsame. simpl. lia. }
  destruct (getCorrect (correct q) (js_get ua' i)) as [ok|e]; [|done].
  cbn [bind]. apply IH. intros j Hj.
  replace (S i + j) with (i + S j) by lia. apply Hsame. simpl. lia.
Qed.

Lemma reduce_acc (ua : list (option (list Z))) (qs : list QuestionData) :
  ∀ i acc,
    reduce ua qs i acc = let! n := reduce ua qs i 0 in Ok (acc + n).
Proof.
  induction qs as [|q rest IH]; intros i acc.
  - simpl. f_equal. lia.
  - cbn [reduce].
    destruct (getCorrect (correct q) (js_get ua i)) as [ok|e]; [|done].
    cbn [bind]. rewrite (IH (S i) (acc + _)), (IH (S i) (0 + _)).
    destruct (reduce ua rest (S i) 0) as [n|e]; [|done].
    cbn [bind]. f_equal. lia.
Qed.

Lemma reduce_app (ua : list (option (list Z))) (qs1 qs2 : list QuestionData) :
  ∀ i acc,
    reduce ua (qs1 ++ qs2) i acc =
    let! n1 := reduce ua qs1 i acc in reduce ua qs2 (i + length qs1) n1.
Proof.
  induction qs1 as [|q rest IH]; intros i acc.
  - simpl. by rewrite Nat.add_0_r.
  - cbn [app reduce].
    destruct (getCorrect (correct q) (js_get ua i)) as [ok|e]; [|done].
    cbn [bind]. rewrite IH. cbn [length].
    by replace (i + S (length rest)) with (S i + length rest) by lia.
Qed.

Lemma js_get_drop {A} (arr : list (option A)) n i :
  js_get (drop n arr) i = js_get arr (n + i).
Proof. unfold js_get. by rewrite lookup_drop. Qed.

Lemma js_get_take {A} (arr : list (option A)) n i :
  i < n → js_get (take n arr) i = js_get arr i.
Proof. intros Hi. unfold js_get. by rewrite lookup_take_lt. Qed.

Lemma reduce_shift (ua : list (option (list Z))) (qs : list QuestionData) n :
  ∀ i acc, reduce ua qs (n + i) acc = reduce (drop n ua) qs i acc.
Proof.
  induction qs as [|q rest IH]; intros i acc; [done|].
  cbn [reduce]. rewrite js_get_drop.
  destruct (getCorrect (correct q) (js_get ua (n + i))) as [ok|e]; [|done].
  cbn [bind]. rewrite <- IH. by replace (n + S i) with (S (n + i)) by lia.
Qed.

End ScoreFacts.

(** X1. Whenever grading returns, the score lies between 0 and the total
    that is shown next to it. *)
Theorem score_at_most_total (data : list QuestionData)
        (userAnswers : list (option (list Z))) (n : nat) :
  Summary.score data userAnswers = Ok n → n ≤ Summary.total data.
Proof.
  intros Hscore. unfold Summary.total. by eapply score_bounds.
Qed.

Lemma score_at_most_total_witness :
  Summary.score quizData [Some [1]; Some [1]; Some [0]]%Z = Ok 1 ∧
  1 ≤ Summary.total quizData.
Proof.
  assert (Summary.score quizData [Some [1]; Some [1]; Some [0]]%Z = Ok 1)
    as Hscore by reflexivity.
  split; [exact Hscore|].
  exact (score_at_most_total _ _ _ Hscore).
Defined.

(** X2. Grading throws exactly when some question with a single-index
    [correct] has no entry in the answer set; when it returns, no such
    question lacks its entry and the score is the count of the questions
    graded correct. *)
Theorem score_throws_iff_entry_missing (data : list QuestionData)
        (userAnswers : list (option (list Z))) :
  (Summary.score data userAnswers = Throw TypeError ↔
   ∃ i q c, data !! i = Some q ∧ correct q = SingleIndex c ∧
            js_get userAnswers i = None) ∧
  (∀ n, Summary.score data userAnswers = Ok n →
        answered data userAnswers ∧ n = countCorrect data userAnswers).
Proof.
  split.
  - split.
    + intros Hthrow. by apply reduce_throws_inv in Hthrow.
    + intros (i & q & c & Hq & Hc & Hnone). by eapply score_throws.
  - intros n Hscore.
    assert (answered data userAnswers) as Hans.
    { intros i q c Hq Hc. destruct (js_get userAnswers i) eqn:Hget; [by eexists|].
      rewrite (score_throws data userAnswers i q c Hq Hc Hget) in Hscore. done. }
    split; [done|]. rewrite (score_count _ _ Hans) in Hscore. congruence.
Qed.

(** X3. Entries of the answer set beyond the last question are never
    read: grading the answer set and grading its first [data.length]
    entries give the same outcome, a thrown error included. *)
Theorem score_reads_only_question_positions (data : list QuestionData)
        (userAnswers : list (option (list Z))) :
  Summary.score data userAnswers =
  Summary.score data (take (length data) userAnswers).
Proof.
  unfold Summary.score. apply reduce_ext. intros j Hj. simpl.
  by rewrite js_get_take.
Qed.

(** X4. Grading a question list made of two parts is grading the first
    part, then the second part against the entries that follow those of
    the first, and adding up; it throws as soon as one part does. *)
Theorem score_of_concatenation (data1 data2 : list QuestionData)
        (userAnswers : list (option (list Z))) :
  Summary.score (data1 ++ data2) userAnswers =
  let! n1 := Summary.score data1 userAnswers in
  let! n2 := Summary.score data2 (drop (length data1) userAnswers) in
  Ok (n1 + n2).
Proof.
  unfold Summary.score. rewrite reduce_app.
  destruct (Summary.reduce userAnswers data1 0 0) as [n1|e]; [|done].
  cbn [bind]. simpl. rewrite reduce_acc.
  replace (length data1) with (length data1 + 0) at 1 by lia.
  by rewrite reduce_shift.
Qed.

(** ** Grading and the order of the arrays *)

Section Order.
Import Summary.

Lemma includes_Permutation (arr arr' : list Z) (v : Z) :
  arr ≡ₚ arr' → includes arr v = includes arr' v.
Proof.
  intros Hperm. rewrite !includes_decide.
  apply bool_decide_ext. by rewrite Hperm.
Qed.

Lemma every_Permutation {A} (f g : A → bool) (arr arr' : list A) :
  arr ≡ₚ arr' → (∀ x, f x = g x) → every f arr = every g arr'.
Proof.
  intros Hperm Hfg. apply eq_true_iff_eq. rewrite !every_true_iff.
  split; intros Hall x Hx.
  - rewrite <- Hfg. apply Hall. by rewrite Hperm.
  - rewrite Hfg. apply Hall. by rewrite <- Hperm.
Qed.

End Order.

(** X5. The outcome of grading a question does not depend on the order
    of the entries of the selection, nor on the order of the entries of a
    set-valued [correct]. *)
Theorem getCorrect_order_irrelevant (cs cs' sel sel' : list Z) (c : Z) :
  cs ≡ₚ cs' → sel ≡ₚ sel' →
  Summary.getCorrect (IndexSet cs) (Some sel) =
  Summary.getCorrect (IndexSet cs') (Some sel') ∧
  Summary.getCorrect (SingleIndex c) (Some sel) =
  Summary.getCorrect (SingleIndex c) (Some sel').
Proof.
  intros Hcs Hsel. simpl. split.
  - f_equal. f_equal.
    + by rewrite (Permutation_length Hcs), (Permutation_length Hsel).
    + apply every_Permutation; [done|]. intros v. by apply includes_Permutation.
  - f_equal. by apply includes_Permutation.
Qed.

Lemma getCorrect_order_irrelevant_witness :
  [1; 3]%Z ≡ₚ [3; 1]%Z ∧ [3; 1]%Z ≡ₚ [1; 3]%Z ∧
  Summary.getCorrect (IndexSet [1; 3]%Z) (Some [3; 1]%Z) =
  Summary.getCorrect (IndexSet [3; 1]%Z) (Some [1; 3]%Z).
Proof.
  assert ([1; 3]%Z ≡ₚ [3; 1]%Z) as H1 by apply perm_swap.
  assert ([3; 1]%Z ≡ₚ [1; 3]%Z) as H2 by apply perm_swap.
  split; [exact H1|]. split; [exact H2|].
  exact (proj1 (getCorrect_order_irrelevant _ _ _ _ 0%Z H1 H2)).
Defined.

(** X6. For a question with a set-valued [correct], a missing entry is
    graded as an empty selection would be exactly when [correct] is not
    empty: against an empty [correct] the empty selection is correct and
    the missing entry is not. *)
Theorem missing_entry_as_empty_selection (cs : list Z) :
  Summary.getCorrect (IndexSet cs) None = Summary.getCorrect (IndexSet cs) (Some [])
  ↔ cs ≠ [].
Proof.
  destruct cs as [|c rest]; simpl; split; (done || congruence).
Qed.

(** ** Selecting *)

Section SelectFacts.
Import Question.

Lemma isMultipleAnswer_true q : isMultipleAnswer q = true ↔ type q = MultipleAnswer.
Proof. unfold isMultipleAnswer. destruct (type q); split; congruence. Qed.

Lemma isMultipleAnswer_false q : isMultipleAnswer q = false ↔ type q ≠ MultipleAnswer.
Proof. unfold isMultipleAnswer. destruct (type q); split; congruence. Qed.

(** Membership after a press on a multiple-answer question. *)
Lemma handleSelect_multi_elem_of q (x y : Z) (prev : list Z) :
  type q = MultipleAnswer →
  y ∈ handleSelect q x prev ↔ (y = x ∧ x ∉ prev) ∨ (y ≠ x ∧ y ∈ prev).
Proof.
  intros Hty. apply isMultipleAnswer_true in Hty.
  destruct (decide (x ∈ prev)) as [Hin|Hnot].
  - rewrite handleSelect_multi_present by done. rewrite list_elem_of_filter.
    split; [intros [Hne Hy]; by right | intros [[_ Hx]|[Hne Hy]]; done].
  - rewrite handleSelect_multi_absent by done.
    rewrite elem_of_app, list_elem_of_singleton. split.
    + intros [Hy| ->]; [right | by left]. split; [|done]. by intros ->.
    + intros [[-> _]|[_ Hy]]; [by right | by left].
Qed.

Lemma filter_ne_length (x : Z) (prev : list Z) :
  NoDup prev → x ∈ prev → S (length (filter (λ v, v ≠ x) prev)) = length prev.
Proof.
  induction prev as [|y rest IH]; intros Hnd Hin; [by apply elem_of_nil in Hin|].
  apply NoDup_cons in Hnd as [Hy Hnd].
  destruct (decide (y = x)) as [->|Hne].
  - rewrite filter_cons_False by (by intros H). simpl.
    by rewrite filter_ne_absent.
  - rewrite filter_cons_True by done. simpl. f_equal. apply IH; [done|].
    apply elem_of_cons in Hin as [->|Hin]; done.
Qed.

Lemma press_all_fresh q (values : list Z) :
  type q = MultipleAnswer →
  ∀ prev, NoDup (prev ++ values) → press_all q prev values = prev ++ values.
Proof.
  intros Hty. apply isMultipleAnswer_true in Hty.
  induction values as [|v rest IH]; intros prev Hnd.
  - by rewrite app_nil_r.
  - unfold press_all. cbn [foldl]. fold (press_all q (handleSelect q v prev) rest).
    assert (v ∉ prev) as Hnot.
    { apply NoDup_app in Hnd as (_ & Hdisj & _). intros Hin.
      apply (Hdisj v Hin). by left. }
    rewrite handleSelect_multi_absent by done.
    rewrite IH; [by rewrite <- app_assoc|]. by rewrite <- app_assoc.
Qed.

End SelectFacts.

(** X7. On a multiple-answer question with a duplicate-free selection, a
    press changes the number of selected choices by exactly one: one
    fewer when the choice was selected, one more when it was not. *)
Theorem handleSelect_multi_length (q : QuestionData) (x : Z) (prev : list Z) :
  type q = MultipleAnswer → NoDup prev →
  length (Question.handleSelect q x prev) =
  if bool_decide (x ∈ prev) then length prev - 1 else length prev + 1.
Proof.
  intros Hty Hnd. apply isMultipleAnswer_true in Hty. case_bool_decide as Hin.
  - rewrite handleSelect_multi_present by done.
    pose proof (filter_ne_length x prev Hnd Hin). lia.
  - rewrite handleSelect_multi_absent by done.
    rewrite length_app. simpl. lia.
Qed.

Lemma handleSelect_multi_length_witness :
  type evenNumbers
  = MultipleAnswer ∧
  NoDup [1; 3]%Z ∧
  length (Question.handleSelect
            evenNumbers
            3 [1; 3]%Z)
  = if bool_decide (3%Z ∈ [1; 3]%Z) then length [1; 3]%Z - 1 else length [1; 3]%Z + 1.
Proof.
  assert (NoDup [1; 3]%Z) as Hnd by (apply (bool_decide_unpack _); reflexivity).
  split; [reflexivity|]. split; [exact Hnd|].
  exact (handleSelect_multi_length evenNumbers 3 [1; 3]%Z eq_refl Hnd).
Defined.

(** X8. On a multiple-answer question two presses commute: pressing [a]
    then [b] selects the same choices as pressing [b] then [a]. *)
Theorem handleSelect_multi_commute (q : QuestionData) (a b : Z) (prev : list Z) :
  type q = MultipleAnswer →
  ∀ y, y ∈ Question.handleSelect q b (Question.handleSelect q a prev) ↔
       y ∈ Question.handleSelect q a (Question.handleSelect q b prev).
Proof.
  intros Hty y. rewrite !handleSelect_multi_elem_of by done.
  destruct (decide (a = b)) as [->|Hab]; [done|].
  assert (b ≠ a) as Hba by congruence.
  destruct (decide (a ∈ prev)); destruct (decide (b ∈ prev));
    destruct (decide (y = a)) as [Hya|Hya];
    destruct (decide (y = b)) as [Hyb|Hyb];
    try congruence; try subst y; intuition congruence.
Qed.

Lemma handleSelect_multi_commute_witness :
  type evenNumbers
  = MultipleAnswer ∧
  ∀ y : Z,
    y ∈ Question.handleSelect
          evenNumbers 2
          (Question.handleSelect
             evenNumbers
             1 [1; 3]%Z)
    ↔ y ∈ Question.handleSelect
          evenNumbers 1
          (Question.handleSelect
             evenNumbers
             2 [1; 3]%Z).
Proof.
  split; [reflexivity|].
  exact (handleSelect_multi_commute evenNumbers 1 2 [1; 3]%Z eq_refl).
Defined.

(** X9. On a multiple-answer question, pressing distinct choices that are
    not yet selected appends them to the selection in the order of the
    presses; from an empty selection the selection is the presses. *)
Theorem press_all_distinct (q : QuestionData) (prev values : list Z) :
  type q = MultipleAnswer → NoDup (prev ++ values) →
  press_all q prev values = prev ++ values.
Proof. intros Hty Hnd. by apply press_all_fresh. Qed.

Lemma press_all_distinct_witness :
  type evenNumbers
  = MultipleAnswer ∧
  NoDup ([] ++ [3; 0; 1]%Z) ∧
  press_all evenNumbers
            [] [3; 0; 1]%Z
  = [] ++ [3; 0; 1]%Z.
Proof.
  assert (NoDup ([] ++ [3; 0; 1]%Z)) as Hnd
    by (apply (bool_decide_unpack _); reflexivity).
  split; [reflexivity|]. split; [exact Hnd|].
  exact (press_all_distinct evenNumbers [] [3; 0; 1]%Z eq_refl Hnd).
Defined.

(** X10. On a question that is not multiple-answer, the last press alone
    decides the grade: against a single-index [correct] the question is
    correct iff the pressed choice is that index, and against a
    set-valued [correct] iff [correct] is the one-element array of the
    pressed choice. *)
Theorem single_select_graded_by_last_press
        (q : QuestionData) (value c : Z) (cs prev : list Z) :
  type q ≠ MultipleAnswer →
  (Summary.getCorrect (SingleIndex c) (Some (Question.handleSelect q value prev))
   = Ok true ↔ value = c) ∧
  (Summary.getCorrect (IndexSet cs) (Some (Question.handleSelect q value prev))
   = Ok true ↔ cs = [value]).
Proof.
  intros Hty. apply isMultipleAnswer_false in Hty.
  rewrite handleSelect_single by done. split.
  - rewrite getCorrect_single. split.
    + intros [= H]. apply bool_decide_eq_true in H.
      by apply list_elem_of_singleton in H.
    + intros ->. f_equal. apply bool_decide_eq_true. by apply list_elem_of_singleton.
  - rewrite getCorrect_set_true. split.
    + intros [Hlen Hall]. destruct cs as [|c0 [|c1 rest]]; [done| |done].
      f_equal. apply list_elem_of_singleton, Hall. by left.
    + intros ->. split; [done|]. by intros x Hx.
Qed.

Lemma single_select_graded_by_last_press_witness :
  type skyIsBlue ≠ MultipleAnswer ∧
  (Summary.getCorrect (SingleIndex 1)
     (Some (Question.handleSelect
              skyIsBlue 1 [0]%Z))
   = Ok true ↔ 1%Z = 1%Z).
Proof.
  split; [discriminate|].
  refine (proj1 (single_select_graded_by_last_press skyIsBlue 1 1 [] [0]%Z _)). discriminate.
Defined.

(** ** Sessions with the back action: the stack *)

Section Stack.
Import Route Question.
Variable d : list QuestionData.

Lemma valid_selection_nil q : valid_selection q [].
Proof.
  split; [apply NoDup_nil_2|]. split; [|simpl; lia].
  intros v Hv. by apply elem_of_nil in Hv.
Qed.

Lemma valid_selection_handleSelect q idx (sel : list Z) :
  idx < length (choices q) → valid_selection q sel →
  valid_selection q (handleSelect q (Z.of_nat idx) sel).
Proof.
  intros Hidx (Hnd & Hrange & Hone).
  split; [by apply handleSelect_NoDup|].
  unfold handleSelect. destruct (isMultipleAnswer q) eqn:Hq.
  - apply isMultipleAnswer_true in Hq. split; [|done].
    intros v Hv. destruct (includes sel (Z.of_nat idx)).
    + apply list_elem_of_filter in Hv as [_ Hv]. by apply Hrange.
    + apply elem_of_app in Hv as [Hv|Hv]; [by apply Hrange|].
      apply list_elem_of_singleton in Hv as ->. lia.
  - split; [|done]. intros v Hv. apply list_elem_of_singleton in Hv as ->. lia.
Qed.

Lemma deref_app_l (h ext : list (list (option (list Z)))) l :
  l < length h → deref (h ++ ext) l = deref h l.
Proof. intros Hl. unfold deref. by rewrite lookup_app_l. Qed.

Lemma prefix_js_get {A} (arr arr' : list (option A)) i (v : A) :
  arr `prefix_of` arr' → js_get arr i = Some v → js_get arr' i = Some v.
Proof.
  intros Hpre Hget. apply js_get_Some in Hget. apply js_get_Some.
  by eapply prefix_lookup_Some.
Qed.

(** One screen under the focused one for each entry of its Answer Set. *)
Lemma below_inv_length h below : ∀ arr,
  below_inv d h arr below → length arr = length below.
Proof.
  induction below as [|[p s|p] rest IH]; intros arr Hb; simpl in Hb.
  - by subst.
  - destruct Hb as (_ & _ & _ & -> & _ & Hrest).
    rewrite length_app, (IH _ Hrest). simpl. lia.
  - done.
Qed.

(** The topmost of them is for the last entry. *)
Lemma below_inv_index h arr p s rest :
  below_inv d h arr (QuestionScreen p s :: rest) → S (index p) = length arr.
Proof.
  simpl. intros (_ & _ & Hlen & -> & _). rewrite length_app. simpl. lia.
Qed.

(** Every entry is a selection that was committed for its question. *)
Lemma below_inv_entries h below : ∀ arr,
  below_inv d h arr below →
  ∀ i entry, arr !! i = Some entry →
    ∃ sel q, entry = Some sel ∧ d !! i = Some q ∧ valid_selection q sel ∧ sel ≠ [].
Proof.
  induction below as [|[p s|p] rest IH]; intros arr Hb i entry Hentry;
    simpl in Hb; [by subst| |done].
  destruct Hb as (_ & _ & Hlen & -> & (q & Hq & Hvalid & Hne) & Hrest).
  apply lookup_app_Some in Hentry as [Hold|[Hge Hnew]]; [by eapply IH|].
  apply list_lookup_singleton_Some in Hnew as [Hi <-].
  assert (i = index p) as -> by lia. by exists s, q.
Qed.

(** Every screen under the focused one is a Question screen, and its
    selection is the entry of its question. *)
Lemma below_inv_mounted h below : ∀ arr,
  below_inv d h arr below →
  ∀ j scr, below !! j = Some scr →
    ∃ p s, scr = QuestionScreen p s ∧ index p + S j = length below ∧
           js_get arr (index p) = Some s.
Proof.
  induction below as [|[p s|p] rest IH]; intros arr Hb j scr Hj;
    [done| |done].
  pose proof (below_inv_length _ _ _ Hb) as Hlength.
  pose proof (below_inv_index _ _ _ _ _ Hb) as Hindex.
  simpl in Hb. destruct Hb as (_ & _ & Hlen & -> & _ & Hrest).
  destruct j as [|j]; simpl in Hj.
  - injection Hj as <-. exists p, s. split; [done|]. split; [lia|].
    apply js_get_Some. rewrite lookup_app_r by lia.
    by rewrite Hlen, Nat.sub_diag.
  - destruct (IH _ Hrest j scr Hj) as (p' & s' & -> & Hpos & Hget).
    exists p', s'. split; [done|]. split; [simpl; lia|].
    eapply prefix_js_get; [|done]. by apply prefix_app_r.
Qed.

(** New arrays do not disturb the screens that are mounted. *)
Lemma below_inv_heap h ext below : ∀ arr,
  below_inv d h arr below → below_inv d (h ++ ext) arr below.
Proof.
  induction below as [|[p s|p] rest IH]; intros arr Hb; simpl in *; [done| |done].
  destruct Hb as (Hdata & Hloc & Hlen & Harr & Hq & Hrest).
  rewrite deref_app_l by done. rewrite length_app.
  repeat split; try done; [lia | by apply IH].
Qed.

Lemma init_stack_inv : d ≠ [] → stack_inv d (init d).
Proof.
  intros Hd. unfold stack_inv, init. simpl.
  split; [done|]. split; [destruct d; [done | simpl; lia]|].
  split; [lia|]. split; [done|]. split; [|done].
  intros q _. apply valid_selection_nil.
Qed.

(** Going back to a mounted screen. *)
Lemma back_stack_inv h arr scr rest :
  below_inv d h arr (scr :: rest) →
  stack_inv d {| heap := h; routes := scr :: rest |}.
Proof.
  destruct scr as [p s|p]; [|done]. simpl.
  intros (Hdata & Hloc & Hlen & _ & (q & Hq & Hvalid & _) & Hrest).
  unfold stack_inv. simpl. split; [done|].
  split; [by eapply lookup_lt_Some|]. split; [done|]. split; [done|].
  split; [|done]. intros q' Hq'. rewrite Hq in Hq'. by injection Hq' as <-.
Qed.

Lemma step_stack_inv nav ev nav' :
  stack_inv d nav → step nav ev = Some nav' → stack_inv d nav'.
Proof.
  intros Hinv Hstep. unfold stack_inv in Hinv. unfold step in Hstep.
  destruct (routes nav) as [|[params selected|params] below] eqn:Hroutes; [done| |].
  - destruct Hinv as (Hdata & Hidx & Hloc & Hlen & Hvalid & Hbelow).
    destruct (lookup_lt_is_Some_2 _ _ Hidx) as [q Hq].
    unfold question in Hstep. rewrite Hdata, Hq in Hstep.
    specialize (Hvalid q Hq).
    destruct ev as [idx| |].
    + case_decide as Hrange; [|done]. injection Hstep as <-.
      unfold stack_inv. simpl.
      split; [done|]. split; [done|]. split; [done|]. split; [done|].
      split; [|done]. intros q' Hq'. rewrite Hq in Hq'. injection Hq' as <-.
      by apply valid_selection_handleSelect.
    + destruct (nextDisabled selected) eqn:Hdis; [done|]. injection Hstep as <-.
      assert (selected ≠ []) as Hne by (intros ->; discriminate Hdis).
      assert (below_inv d (heap nav ++
                [js_set (deref (heap nav) (userAnswers params)) (index params) selected])
                (deref (heap nav) (userAnswers params) ++ [Some selected])
                (QuestionScreen params selected :: below)) as Hcommitted.
      { simpl. rewrite deref_app_l by done. rewrite length_app.
        split; [done|]. split; [lia|]. split; [done|]. split; [done|].
        split; [by exists q|]. by apply below_inv_heap. }
      pose proof (js_set_end (deref (heap nav) (userAnswers params)) selected)
        as Hset.
      rewrite Hlen in Hset. rewrite Hset in Hcommitted.
      unfold stack_inv. rewrite handleNext_heap, Hset.
      destruct (decide (index params + 1 < length (data params))) as [Hlt|Hge].
      * rewrite handleNext_push by done. cbn [data index userAnswers].
        rewrite deref_alloc, !length_app. cbn [length].
        rewrite Hdata in Hlt.
        split; [done|]. split; [done|]. split; [lia|]. split; [lia|].
        split; [intros q' _; apply valid_selection_nil|]. exact Hcommitted.
      * rewrite handleNext_replace by done. cbn [summary_data summary_userAnswers].
        rewrite deref_alloc, !length_app. cbn [length].
        rewrite Hdata in Hge.
        split; [done|]. split; [lia|].
        exists (deref (heap nav) (userAnswers params)), selected, q.
        rewrite Hlen. split; [done|]. split; [lia|]. split; [done|].
        split; [done|]. split; [done|].
        apply below_inv_heap. exact Hbelow.
    + unfold goBack in Hstep. destruct below as [|scr rest]; [done|].
      injection Hstep as <-. by eapply back_stack_inv.
  - destruct Hinv as (Hdata & Hloc & arr & sel & q & Harr & Hlen & Hq & Hvalid & Hne & Hbelow).
    destruct ev as [idx| |]; [done|done|].
    unfold goBack in Hstep. destruct below as [|scr rest]; [done|].
    injection Hstep as <-. by eapply back_stack_inv.
Qed.

Lemma run_stack_inv evs : ∀ nav nav',
  stack_inv d nav → run nav evs = Some nav' → stack_inv d nav'.
Proof.
  induction evs as [|ev rest IH]; intros nav nav' Hinv Hrun.
  - by injection Hrun as <-.
  - simpl in Hrun. destruct (step nav ev) as [nav1|] eqn:Hstep; [|done].
    apply (IH nav1); [by eapply step_stack_inv | done].
Qed.

End Stack.

Section Reachable.
Import Route Question.
Variable d : list QuestionData.

Lemma stack_inv_session nav : stack_inv d nav → session_inv d nav.
Proof.
  unfold stack_inv, session_inv.
  destruct (routes nav) as [|[params selected|params] below]; [done| |].
  - by intros (Hdata & Hidx & Hloc & Hlen & _).
  - intros (Hdata & Hloc & arr & sel & q & Harr & Hlen & _).
    split; [done|]. split; [done|]. rewrite Harr, length_app. simpl. lia.
Qed.

Lemma stack_inv_entries nav :
  stack_inv d nav →
  ∀ i entry, answerSet nav !! i = Some entry →
    ∃ sel q, entry = Some sel ∧ d !! i = Some q ∧ valid_selection q sel ∧ sel ≠ [].
Proof.
  unfold stack_inv, answerSet.
  destruct (routes nav) as [|[params selected|params] below]; [done| |].
  - intros (_ & _ & _ & _ & _ & Hbelow). by eapply below_inv_entries.
  - intros (_ & _ & arr & sel & q & -> & Hlen & Hq & Hvalid & Hne & Hbelow) i entry Hentry.
    apply lookup_app_Some in Hentry as [Hold|[Hge Hnew]];
      [by eapply below_inv_entries|].
    apply list_lookup_singleton_Some in Hnew as [Hi <-].
    assert (i = length arr) as -> by lia. by exists sel, q.
Qed.

Lemma stack_inv_selections nav : stack_inv d nav → selections_inv d nav.
Proof.
  intros Hinv. split; [|by apply stack_inv_entries].
  intros params selected below q Hroutes Hq.
  unfold stack_inv in Hinv. rewrite Hroutes in Hinv.
  destruct Hinv as (_ & _ & _ & _ & Hvalid & _). by apply Hvalid.
Qed.

Lemma stack_inv_answers nav : stack_inv d nav → answers_inv nav.
Proof.
  intros Hinv. split.
  - unfold stack_inv in Hinv. unfold tracker.
    destruct (routes nav) as [|[params selected|params] below];
      [done| |apply NoDup_nil_2].
    destruct Hinv as (_ & Hidx & _ & _ & Hvalid & _).
    destruct (lookup_lt_is_Some_2 _ _ Hidx) as [q Hq].
    by destruct (Hvalid q Hq) as (Hnd & _).
  - apply Forall_lookup. intros i entry Hentry.
    destruct (stack_inv_entries nav Hinv i entry Hentry)
      as (sel & q & -> & _ & (Hnd & _) & Hne).
    by exists sel.
Qed.

Lemma length_answerSet nav :
  session_inv d nav → length (answerSet nav) = progress nav.
Proof.
  unfold session_inv, answerSet, progress.
  destruct (routes nav) as [|[params selected|params] below]; [done| |].
  - by intros (_ & _ & _ & Hlen).
  - intros (Hdata & _ & Hlen). by rewrite Hdata.
Qed.

Lemma reachable_stack_inv evs nav :
  d ≠ [] → run (init d) evs = Some nav → stack_inv d nav.
Proof.
  intros Hd Hrun. by eapply run_stack_inv, Hrun; apply init_stack_inv.
Qed.

Lemma reachable_inv evs nav :
  d ≠ [] → run (init d) evs = Some nav →
  session_inv d nav ∧ answers_inv nav ∧ selections_inv d nav ∧
  length (answerSet nav) = progress nav.
Proof.
  intros Hd Hrun. pose proof (reachable_stack_inv evs nav Hd Hrun) as Hinv.
  pose proof (stack_inv_session nav Hinv) as Hsession.
  split; [done|]. split; [by apply stack_inv_answers|].
  split; [by apply stack_inv_selections|]. by apply length_answerSet.
Qed.

(** What each event does to the Answer Set of the focused screen. *)
Lemma step_answerSet nav ev nav' :
  stack_inv d nav → step nav ev = Some nav' →
  match ev with
  | PressChoice _ => answerSet nav' = answerSet nav
  | PressNext => answerSet nav' = answerSet nav ++ [Some (tracker nav)]
  | PressBack =>
      answerSet nav' = take (progress nav') (answerSet nav) ∧
      progress nav' < length (answerSet nav) ∧
      js_get (answerSet nav) (progress nav') = Some (tracker nav')
  end.
Proof.
  intros Hinv Hstep. unfold stack_inv in Hinv. unfold step in Hstep.
  destruct (routes nav) as [|[params selected|params] below] eqn:Hroutes; [done| |].
  - assert (answerSet nav = deref (heap nav) (userAnswers params)) as Hans
      by (unfold answerSet; by rewrite Hroutes).
    assert (tracker nav = selected) as Htr by (unfold tracker; by rewrite Hroutes).
    destruct Hinv as (Hdata & Hidx & Hloc & Hlen & Hvalid & Hbelow).
    destruct (question params) as [q|]; [|done].
    destruct ev as [idx| |].
    + case_decide; [|done]. injection Hstep as <-. by rewrite Hans.
    + destruct (nextDisabled selected); [done|]. injection Hstep as <-.
      by rewrite handleNext_answerSet, Hans, Htr, <- Hlen, js_set_end.
    + unfold goBack in Hstep. destruct below as [|[p s|p] rest]; [done| |done].
      injection Hstep as <-. simpl in Hbelow.
      destruct Hbelow as (_ & _ & Hlenp & Harr & _). rewrite Hans, Harr.
      unfold answerSet, progress, tracker. simpl.
      rewrite <- Hlenp at 1 3. rewrite take_app_length, length_app. simpl.
      split; [done|]. split; [lia|]. apply js_get_Some.
      rewrite lookup_app_r by lia. by rewrite Hlenp, Nat.sub_diag.
  - assert (answerSet nav = deref (heap nav) (summary_userAnswers params)) as Hans
      by (unfold answerSet; by rewrite Hroutes).
    destruct Hinv as (Hdata & Hloc & arr & sel & q & Harr & Hlen & Hq & _ & _ & Hbelow).
    destruct ev as [idx| |]; [done|done|].
    unfold goBack in Hstep. destruct below as [|[p s|p] rest]; [done| |done].
    injection Hstep as <-. simpl in Hbelow.
    destruct Hbelow as (_ & _ & Hlenp & Harr' & _). rewrite Hans, Harr, Harr'.
    unfold answerSet, progress, tracker. simpl.
    rewrite <- (app_assoc _ [Some s] [Some sel]).
    rewrite <- Hlenp at 1 3. rewrite take_app_length, length_app. simpl.
    split; [done|]. split; [lia|]. apply js_get_Some.
    rewrite lookup_app_r by lia. by rewrite Nat.sub_diag.
Qed.

(** The store only grows, by one array for each commit. *)
Lemma step_heap nav ev nav' :
  step nav ev = Some nav' →
  ∃ ext, heap nav' = heap nav ++ ext ∧ length ext = commits [ev].
Proof.
  unfold step.
  destruct (routes nav) as [|[params selected|params] below]; [done| |].
  - destruct (question params) as [q|]; [|done].
    destruct ev as [idx| |].
    + case_decide; [|done]. intros [= <-]. exists []. by rewrite app_nil_r.
    + destruct (nextDisabled selected); [done|]. intros [= <-].
      rewrite handleNext_heap. by eexists.
    + unfold goBack. destruct below; [done|]. intros [= <-].
      exists []. by rewrite app_nil_r.
  - destruct ev as [idx| |]; [done|done|].
    unfold goBack. destruct below; [done|]. intros [= <-].
    exists []. by rewrite app_nil_r.
Qed.

Lemma run_heap evs : ∀ nav nav',
  run nav evs = Some nav' →
  heap nav `prefix_of` heap nav' ∧
  length (heap nav') = length (heap nav) + commits evs.
Proof.
  induction evs as [|ev rest IH]; intros nav nav' Hrun.
  - injection Hrun as <-. simpl. split; [done | lia].
  - simpl in Hrun. destruct (step nav ev) as [nav1|] eqn:Hstep; [|done].
    destruct (step_heap _ _ _ Hstep) as (ext & Hext & Hlen).
    destruct (IH _ _ Hrun) as [Hpre Hlength]. split.
    + etrans; [|exact Hpre]. rewrite Hext. by apply prefix_app_r.
    + rewrite Hlength, Hext, length_app, Hlen.
      change (ev :: rest) with ([ev] ++ rest). rewrite commits_app. lia.
Qed.

(** Where going back leads, and when there is no going back. *)
Lemma step_back_phase nav nav' :
  stack_inv d nav → step nav PressBack = Some nav' →
  ∃ position,
    phase nav' = Some (AwaitingSelection position) ∧
    progress nav' = position ∧
    (phase nav = Some (AwaitingSelection (position + 1)) ∨
     (phase nav = Some Graded ∧ position + 2 = length d)).
Proof.
  intros Hinv Hstep. unfold stack_inv in Hinv. unfold step in Hstep. unfold phase.
  destruct (routes nav) as [|[params selected|params] below] eqn:Hroutes; [done| |].
  - destruct Hinv as (Hdata & Hidx & Hloc & Hlen & Hvalid & Hbelow).
    destruct (question params) as [q|]; [|done].
    unfold goBack in Hstep. destruct below as [|[p s|p] rest]; [done| |done].
    injection Hstep as <-.
    pose proof (below_inv_index d _ _ _ _ _ Hbelow) as Hindex.
    exists (index p). simpl. split; [done|]. split; [done|]. left.
    do 2 f_equal. lia.
  - destruct Hinv as (Hdata & Hloc & arr & sel & q & Harr & Hlen & Hq & _ & _ & Hbelow).
    unfold goBack in Hstep. destruct below as [|[p s|p] rest]; [done| |done].
    injection Hstep as <-.
    pose proof (below_inv_index d _ _ _ _ _ Hbelow) as Hindex.
    exists (index p). simpl. split; [done|]. split; [done|]. right.
    split; [done | lia].
Qed.

Lemma step_back_None nav :
  stack_inv d nav →
  step nav PressBack = None ↔
  phase nav = Some (AwaitingSelection 0) ∨ (phase nav = Some Graded ∧ length d = 1).
Proof.
  intros Hinv. unfold stack_inv in Hinv. unfold step, phase.
  destruct (routes nav) as [|[params selected|params] below] eqn:Hroutes; [done| |].
  - destruct Hinv as (Hdata & Hidx & Hloc & Hlen & Hvalid & Hbelow).
    pose proof (below_inv_length d _ _ _ Hbelow) as Hlength.
    unfold question. rewrite Hdata.
    destruct (lookup_lt_is_Some_2 _ _ Hidx) as [q ->].
    unfold goBack. destruct below as [|scr rest]; simpl in Hlength.
    + split; [|done]. intros _. left. do 2 f_equal. lia.
    + split; [done|]. intros [[= Hzero]|[? _]]; [lia | done].
  - destruct Hinv as (Hdata & Hloc & arr & sel & q & Harr & Hlen & Hq & _ & _ & Hbelow).
    pose proof (below_inv_length d _ _ _ Hbelow) as Hlength.
    unfold goBack. destruct below as [|scr rest]; simpl in Hlength.
    + split; [|done]. intros _. right. split; [done | lia].
    + split; [done|]. intros [?|[_ Hone]]; [done | lia].
Qed.

End Reachable.

(** C5. A session on a non-empty question list [d], the back action
    included. The focused screen is in [AwaitingSelection position] with
    [position < total] and an Answer Set of [position] entries, or in
    [Graded] with an Answer Set of [total] entries. A commit in
    [AwaitingSelection position] leads to [AwaitingSelection (position+1)]
    with an empty tracker while [position+1 < total], and to [Graded] at
    the last position; selecting stays in the same state. [Graded] offers
    no selection and no commit. Going back leads from
    [AwaitingSelection (position+1)], and from [Graded] when
    [position+2 = total], to [AwaitingSelection position] with the
    selection that was committed there and the Answer Set there was; there
    is no going back from position 0, nor from [Graded] when there is one
    question. When every question has a choice, answering each question in
    turn arrives at [Graded]. *)
Theorem C5_session_state_machine_with_back
        (d : list QuestionData) (evs : list Event) (nav : Nav) :
  d ≠ [] → run (init d) evs = Some nav →
  ((∃ position, phase nav = Some (AwaitingSelection position) ∧
                position < length d ∧ length (answerSet nav) = position) ∨
   (phase nav = Some Graded ∧ length (answerSet nav) = length d)) ∧
  (∀ position nav',
     phase nav = Some (AwaitingSelection position) →
     step nav PressNext = Some nav' →
     (position + 1 < length d →
      phase nav' = Some (AwaitingSelection (position + 1)) ∧ tracker nav' = []) ∧
     (¬ position + 1 < length d →
      position + 1 = length d ∧
      phase nav' = Some Graded ∧ length (answerSet nav') = length d)) ∧
  (∀ idx nav', step nav (PressChoice idx) = Some nav' → phase nav' = phase nav) ∧
  (phase nav = Some Graded → ∀ ev, ev ≠ PressBack → step nav ev = None) ∧
  (∀ nav', step nav PressBack = Some nav' →
     ∃ position,
       phase nav' = Some (AwaitingSelection position) ∧
       (phase nav = Some (AwaitingSelection (position + 1)) ∨
        (phase nav = Some Graded ∧ position + 2 = length d)) ∧
       js_get (answerSet nav) position = Some (tracker nav') ∧
       answerSet nav' = take position (answerSet nav)) ∧
  (step nav PressBack = None ↔
   phase nav = Some (AwaitingSelection 0) ∨
   (phase nav = Some Graded ∧ length d = 1)) ∧
  (Forall (λ q, choices q ≠ []) d →
   ∃ final, run (init d) (answer_first (length d)) = Some final ∧
            phase final = Some Graded ∧ length (answerSet final) = length d).
Proof.
  intros Hd Hrun.
  pose proof (reachable_stack_inv d evs nav Hd Hrun) as Hstack.
  pose proof (stack_inv_session d nav Hstack) as Hinv.
  destruct (phase_of_progress d nav Hinv) as (Hle & Hlt & Heq).
  split; [|split; [|split; [|split; [|split; [|split]]]]].
  - destruct (decide (progress nav < length d)) as [Hless|Hnot].
    + left. exists (progress nav). destruct (Hlt Hless). by repeat split.
    + right. apply Heq. lia.
  - intros position nav' Hph Hnext.
    assert (progress nav = position) as Hpos.
    { unfold phase in Hph. unfold progress.
      destruct (routes nav) as [|[params selected|params] below]; congruence. }
    destruct (step_inv d nav PressNext nav' Hinv ltac:(discriminate) Hnext)
      as [Hinv' Hprog'].
    simpl in Hprog'. rewrite Hpos in Hprog'.
    destruct (phase_of_progress d nav' Hinv') as (Hle' & Hlt' & Heq').
    rewrite Hprog' in Hle', Hlt', Heq'. split.
    + intros Hin. split; [by apply Hlt'|].
      destruct (step_next_Some _ _ Hnext) as (p & sel & b & q & _ & _ & _ & ->).
      apply tracker_handleNext.
    + intros Hout. assert (position + 1 = length d) as Hlast by lia.
      split; [done|]. by apply Heq'.
  - intros idx nav'. apply step_choice_phase.
  - intros Hph ev Hev. by apply graded_no_press.
  - intros nav' Hback.
    destruct (step_back_phase d _ _ Hstack Hback) as (position & Hph' & Hpos & Hfrom).
    pose proof (step_answerSet d _ _ _ Hstack Hback) as (Htake & _ & Hget).
    rewrite Hpos in Htake, Hget. by exists position.
  - by apply step_back_None.
  - intros Hchoices.
    destruct (answer_first_graded d (length d) (init d) Hchoices (init_inv d Hd))
      as (final & Hfinal & Hph); [done | done |].
    exists final. split; [done|]. split; [done|].
    pose proof (reachable_stack_inv d _ _ Hd Hfinal) as Hstackf.
    pose proof (stack_inv_session d _ Hstackf) as Hinvf.
    destruct (phase_of_progress d final Hinvf) as (Hlef & Hltf & Heqf).
    destruct (decide (progress final < length d)) as [Hless|Hnot].
    + destruct (Hltf Hless) as [Hq _]. congruence.
    + apply Heqf. lia.
Qed.

Lemma C5_session_state_machine_with_back_witness :
  quizData ≠ [] ∧
  run (init quizData) quiz_events = Some quiz_final ∧
  ∀ nav', step quiz_final PressBack = Some nav' →
    ∃ position,
      phase nav' = Some (AwaitingSelection position) ∧
      (phase quiz_final = Some (AwaitingSelection (position + 1)) ∨
       (phase quiz_final = Some Graded ∧ position + 2 = length quizData)) ∧
      js_get (answerSet quiz_final) position = Some (tracker nav') ∧
      answerSet nav' = take position (answerSet quiz_final).
Proof.
  assert (quizData ≠ []) as Hd by discriminate.
  assert (run (init quizData) quiz_events = Some quiz_final) as Hrun by reflexivity.
  split; [exact Hd|]. split; [exact Hrun|].
  exact (proj1 (proj2 (proj2 (proj2 (proj2
           (C5_session_state_machine_with_back _ _ _ Hd Hrun)))))).
Defined.

(** Counterexample to C5 with a terminal [Graded]: on the built-in
    questions, going back from the Summary screen focuses the second
    question again, with its committed selection; the answer to it can be
    changed, and [Graded] is reached a second time, with another Answer
    Set. *)
Lemma C5_graded_is_left_and_reached_again :
  run (init quizData) quiz_events = Some quiz_final ∧
  phase quiz_final = Some Graded ∧
  answerSet quiz_final = [Some [1]; Some [1; 3]; Some [1]]%Z ∧
  step quiz_final PressBack = Some quiz_back ∧
  phase quiz_back = Some (AwaitingSelection 1) ∧
  tracker quiz_back = [1; 3]%Z ∧
  run quiz_back quiz_events_again = Some quiz_revised ∧
  phase quiz_revised = Some Graded ∧
  answerSet quiz_revised = [Some [1]; Some [1]; Some [0]]%Z.
Proof. by repeat split. Qed.

(** X11. In a session, the back action included, an array of answers is
    never modified once it is made: the store only grows, by one array for
    each commit. Of the Answer Set of the focused screen, a press on a
    choice changes nothing, a commit makes an extension by the committed
    selection, and going back restores a strictly shorter prefix. *)
Theorem answer_arrays_never_modified
        (d : list QuestionData) (evs1 evs2 : list Event) (nav1 nav2 : Nav) :
  d ≠ [] → run (init d) evs1 = Some nav1 → run nav1 evs2 = Some nav2 →
  heap nav1 `prefix_of` heap nav2 ∧
  length (heap nav2) = length (heap nav1) + commits evs2 ∧
  ∀ ev nav', step nav1 ev = Some nav' →
    match ev with
    | PressChoice _ => answerSet nav' = answerSet nav1
    | PressNext => answerSet nav' = answerSet nav1 ++ [Some (tracker nav1)]
    | PressBack =>
        answerSet nav' `prefix_of` answerSet nav1 ∧
        length (answerSet nav') < length (answerSet nav1)
    end.
Proof.
  intros Hd Hrun1 Hrun2.
  destruct (run_heap _ _ _ Hrun2) as [Hpre Hlen].
  split; [done|]. split; [done|].
  intros ev nav' Hstep.
  pose proof (reachable_stack_inv d _ _ Hd Hrun1) as Hstack.
  pose proof (step_answerSet d _ _ _ Hstack Hstep) as Heffect.
  destruct ev as [idx| |]; [done|done|].
  destruct Heffect as (Htake & Hshort & _). rewrite Htake.
  split; [apply prefix_take|]. rewrite length_take. lia.
Qed.

Lemma answer_arrays_never_modified_witness :
  quizData ≠ [] ∧
  run (init quizData) quiz_events = Some quiz_final ∧
  run quiz_final (PressBack :: quiz_events_again) = Some quiz_revised ∧
  heap quiz_final `prefix_of` heap quiz_revised ∧
  length (heap quiz_revised)
  = length (heap quiz_final) + commits (PressBack :: quiz_events_again).
Proof.
  assert (quizData ≠ []) as Hd by discriminate.
  assert (run (init quizData) quiz_events = Some quiz_final) as Hrun1 by reflexivity.
  assert (run quiz_final (PressBack :: quiz_events_again) = Some quiz_revised)
    as Hrun2 by reflexivity.
  split; [exact Hd|]. split; [exact Hrun1|]. split; [exact Hrun2|].
  pose proof (answer_arrays_never_modified _ _ _ _ _ Hd Hrun1 Hrun2)
    as (Hpre & Hlen & _).
  split; [exact Hpre | exact Hlen].
Defined.

(** X12. In a session, the back action included, the Answer Set of the
    focused screen has one entry for each question before the focused one
    (for every question, on the Summary screen), and the entry of a
    question is a non-empty selection without duplicates, whose members
    are indices of the choices of that question, and which has exactly one
    member unless the question is multiple-answer. *)
Theorem answer_set_entries_valid
        (d : list QuestionData) (evs : list Event) (nav : Nav)
        (i : nat) (q : QuestionData) :
  d ≠ [] → run (init d) evs = Some nav → d !! i = Some q → i < progress nav →
  length (answerSet nav) = progress nav ∧
  ∃ sel, js_get (answerSet nav) i = Some sel ∧
         sel ≠ [] ∧ NoDup sel ∧
         (∀ v, v ∈ sel → (0 ≤ v < Z.of_nat (length (choices q)))%Z) ∧
         (type q ≠ MultipleAnswer → ∃ v, sel = [v]).
Proof.
  intros Hd Hrun Hq Hi.
  destruct (reachable_inv d _ _ Hd Hrun) as (_ & _ & [_ Hentries] & Hlen).
  split; [done|]. rewrite <- Hlen in Hi.
  destruct (lookup_lt_is_Some_2 _ _ Hi) as [entry Hentry].
  destruct (Hentries _ _ Hentry) as (sel & q' & -> & Hq' & Hvalid & Hne).
  rewrite Hq in Hq'. injection Hq' as <-.
  destruct Hvalid as (Hnd & Hrange & Hone).
  exists sel. split; [by apply js_get_Some|].
  split; [done|]. split; [done|]. split; [done|].
  intros Hty. specialize (Hone Hty).
  destruct sel as [|v [|w rest]]; [done | by exists v | simpl in Hone; lia].
Qed.

Lemma answer_set_entries_valid_witness :
  quizData ≠ [] ∧
  run (init quizData) (quiz_events ++ PressBack :: quiz_events_again)
  = Some quiz_revised ∧
  quizData !! 2 = Some skyIsBlue ∧
  2 < progress quiz_revised ∧
  length (answerSet quiz_revised) = progress quiz_revised ∧
  ∃ sel, js_get (answerSet quiz_revised) 2 = Some sel ∧
         sel ≠ [] ∧ NoDup sel ∧
         (∀ v, v ∈ sel → (0 ≤ v < Z.of_nat (length (choices skyIsBlue)))%Z) ∧
         (type skyIsBlue ≠ MultipleAnswer → ∃ v, sel = [v]).
Proof.
  assert (quizData ≠ []) as Hd by discriminate.
  assert (run (init quizData) (quiz_events ++ PressBack :: quiz_events_again)
          = Some quiz_revised) as Hrun by reflexivity.
  assert (quizData !! 2 = Some skyIsBlue) as Hq by reflexivity.
  assert (2 < progress quiz_revised) as Hi by (vm_compute; lia).
  split; [exact Hd|]. split; [exact Hrun|]. split; [exact Hq|]. split; [exact Hi|].
  exact (answer_set_entries_valid _ _ _ _ _ Hd Hrun Hq Hi).
Defined.

(** X13. In a session the selection on the focused Question screen has no
    duplicates, its members are indices of the choices of the question on
    screen, and it has at most one member unless that question is
    multiple-answer. *)
Theorem tracker_valid_in_session
        (d : list QuestionData) (evs : list Event) (nav : Nav)
        (params : Route.QuestionParams) (selected : list Z) (below : list Screen) :
  d ≠ [] → run (init d) evs = Some nav →
  routes nav = QuestionScreen params selected :: below →
  ∃ q, Question.question params = Some q ∧
       NoDup selected ∧
       (∀ v, v ∈ selected → (0 ≤ v < Z.of_nat (length (choices q)))%Z) ∧
       (type q ≠ MultipleAnswer → length selected ≤ 1).
Proof.
  intros Hd Hrun Hroutes.
  destruct (reachable_inv d _ _ Hd Hrun) as (Hinv & _ & [Htracker _] & _).
  unfold session_inv in Hinv. rewrite Hroutes in Hinv.
  destruct Hinv as (Hdata & Hidx & _).
  destruct (lookup_lt_is_Some_2 _ _ Hidx) as [q Hq].
  exists q. split; [unfold Question.question; by rewrite Hdata|].
  apply (Htracker _ _ _ _ Hroutes Hq).
Qed.

Lemma tracker_valid_in_session_witness :
  quizData ≠ [] ∧
  run (init quizData) [PressChoice 0; PressChoice 2] =
  Some {| heap := [[]];
          routes := [QuestionScreen {| Route.data := quizData; Route.index := 0;
                                       Route.userAnswers := 0 |} [2]%Z] |} ∧
  ∃ q, Question.question {| Route.data := quizData; Route.index := 0;
                            Route.userAnswers := 0 |} = Some q ∧
       NoDup [2]%Z ∧
       (∀ v, v ∈ [2]%Z → (0 ≤ v < Z.of_nat (length (choices q)))%Z) ∧
       (type q ≠ MultipleAnswer → length [2]%Z ≤ 1).
Proof.
  assert (quizData ≠ []) as Hd by discriminate.
  assert (run (init quizData) [PressChoice 0; PressChoice 2] =
          Some {| heap := [[]];
                  routes := [QuestionScreen
                               {| Route.data := quizData; Route.index := 0;
                                  Route.userAnswers := 0 |} [2]%Z] |})
    as Hrun by reflexivity.
  split; [exact Hd|]. split; [exact Hrun|].
  exact (tracker_valid_in_session _ _ _ _ _ [] Hd Hrun eq_refl).
Defined.

(** X14. In a session, the back action included, the store holds one
    array more than commits were made, and the stack holds one screen for
    each question up to the focused one (one for each question, on the
    Summary screen, which took the place of the last). Every screen under
    the focused one is a Question screen, they are those of the questions
    before it, in order, and the selection of each is what the Answer Set
    of the focused screen holds for its question. *)
Theorem mounted_screens_hold_committed_answers
        (d : list QuestionData) (evs : list Event) (nav : Nav) :
  d ≠ [] → run (init d) evs = Some nav →
  length (heap nav) = S (commits evs) ∧
  length (routes nav) = S (progress nav) `min` length d ∧
  ∀ j scr, routes nav !! S j = Some scr →
    ∃ params selected,
      scr = QuestionScreen params selected ∧
      Route.index params + S (S j) = length (routes nav) ∧
      js_get (answerSet nav) (Route.index params) = Some selected.
Proof.
  intros Hd Hrun.
  destruct (run_heap _ _ _ Hrun) as [_ Hheap].
  split; [by rewrite Hheap|].
  pose proof (reachable_stack_inv d _ _ Hd Hrun) as Hstack.
  unfold stack_inv in Hstack. unfold progress, answerSet.
  destruct (routes nav) as [|[params selected|params] below]; [done| |].
  - destruct Hstack as (Hdata & Hidx & Hloc & Hlen & _ & Hbelow).
    pose proof (below_inv_length d _ _ _ Hbelow) as Hlength.
    split; [cbn [length]; lia|]. intros j scr Hj. simpl in Hj.
    destruct (below_inv_mounted d _ _ _ Hbelow j scr Hj) as (p & s & -> & Hpos & Hget).
    exists p, s. split; [done|]. split; [cbn [length]; lia | done].
  - destruct Hstack as (Hdata & Hloc & arr & sel & q & Harr & Hlen & _ & _ & _ & Hbelow).
    pose proof (below_inv_length d _ _ _ Hbelow) as Hlength.
    rewrite Hdata. split; [cbn [length]; lia|]. intros j scr Hj. simpl in Hj.
    destruct (below_inv_mounted d _ _ _ Hbelow j scr Hj) as (p & s & -> & Hpos & Hget).
    exists p, s. split; [done|]. split; [cbn [length]; lia|].
    rewrite Harr. eapply prefix_js_get; [|done]. by apply prefix_app_r.
Qed.

Lemma mounted_screens_hold_committed_answers_witness :
  quizData ≠ [] ∧
  run (init quizData) (quiz_events ++ [PressBack]) = Some quiz_back ∧
  length (heap quiz_back) = S (commits (quiz_events ++ [PressBack])) ∧
  length (routes quiz_back) = S (progress quiz_back) `min` length quizData.
Proof.
  assert (quizData ≠ []) as Hd by discriminate.
  assert (run (init quizData) (quiz_events ++ [PressBack]) = Some quiz_back)
    as Hrun by reflexivity.
  split; [exact Hd|]. split; [exact Hrun|].
  pose proof (mounted_screens_hold_committed_answers _ _ _ Hd Hrun) as (Hh & Hr & _).
  split; [exact Hh | exact Hr].
Defined.

(** ** What the Summary screen shows *)

Section SummaryLines.
Import SummaryView.

Lemma questionStyles_lookup ua i q idx :
  questionStyles ua i q !! idx =
  (λ _, choiceStyle (userSelected ua i idx) (isCorrect q idx)) <$> choices q !! idx.
Proof. unfold questionStyles. by rewrite list_lookup_imap. Qed.

Lemma questionStyles_lookup_Some ua i q idx st :
  questionStyles ua i q !! idx = Some st ↔
  idx < length (choices q) ∧
  st = choiceStyle (userSelected ua i idx) (isCorrect q idx).
Proof.
  rewrite questionStyles_lookup. split.
  - destruct (choices q !! idx) as [choice|] eqn:Hchoice; [|done].
    intros [= <-]. split; [by eapply lookup_lt_Some | done].
  - intros [Hidx ->].
    by destruct (lookup_lt_is_Some_2 _ _ Hidx) as [choice ->].
Qed.

Lemma choiceStyle_as_correct (s c : bool) :
  choiceStyle (Some s) c = (if c then Bold else Plain) ↔ s = c.
Proof. destruct s, c; split; done. Qed.

Lemma choiceStyle_Bold (us : option bool) (c : bool) :
  choiceStyle us c = Bold ↔ us = Some true ∧ c = true.
Proof. destruct us as [[|]|], c; split; (done || by intros [? ?]). Qed.

Lemma choiceStyle_marked (us : option bool) (c : bool) :
  choiceStyle us c ≠ Plain ↔ us = Some true.
Proof. destruct us as [[|]|], c; split; done. Qed.

Lemma score_Ok_answered d evs nav :
  d ≠ [] → run (init d) evs = Some nav → phase nav = Some Graded →
  Summary.score d (answerSet nav) = Ok (countCorrect d (answerSet nav)).
Proof.
  intros Hd Hrun Hph.
  destruct (reachable_inv d _ _ Hd Hrun) as (Hinv & [_ Hall] & _ & Hlen).
  destruct (phase_of_progress d nav Hinv) as (Hle & Hlt & _).
  assert (length (answerSet nav) = length d) as Hfull.
  { rewrite (length_answerSet d) by done.
    destruct (decide (progress nav < length d)) as [Hless|]; [|lia].
    destruct (Hlt Hless) as [Hq _]. congruence. }
  apply score_count. intros i q c Hq _.
  apply lookup_lt_Some in Hq. rewrite <- Hfull in Hq.
  destruct (lookup_lt_is_Some_2 _ _ Hq) as [entry Hentry].
  destruct (proj1 (Forall_lookup _ _) Hall _ _ Hentry) as (sel & -> & _).
  exists sel. by apply js_get_Some.
Qed.

End SummaryLines.

(** X15. In a session the Summary screen renders, it does not throw: it
    is given the question list of the session and the Answer Set of the
    last commit, shows as score the count of the questions graded
    correct, as total the number of questions, a score that is at most
    the total, and one block of lines for each question. *)
Theorem summary_renders_in_session
        (d : list QuestionData) (evs : list Event) (nav : Nav) :
  d ≠ [] → run (init d) evs = Some nav → phase nav = Some Graded →
  summary_of nav = Some (d, answerSet nav) ∧
  ∃ view, SummaryView.render d (answerSet nav) = Ok view ∧
          SummaryView.shownScore view = countCorrect d (answerSet nav) ∧
          SummaryView.shownTotal view = length d ∧
          SummaryView.shownScore view ≤ SummaryView.shownTotal view ∧
          length (SummaryView.lines view) = length d.
Proof.
  intros Hd Hrun Hph.
  pose proof (score_Ok_answered d evs nav Hd Hrun Hph) as Hscore.
  split.
  - destruct (reachable_inv d _ _ Hd Hrun) as (Hinv & _).
    unfold session_inv in Hinv. unfold summary_of, answerSet. unfold phase in Hph.
    destruct (routes nav) as [|[params selected|params] below]; [done|done|].
    destruct Hinv as (-> & _). done.
  - unfold SummaryView.render. rewrite Hscore. cbn [bind]. eexists.
    split; [done|]. cbn. split; [done|]. split; [done|].
    split; [|by rewrite length_imap].
    by eapply score_bounds.
Qed.

Lemma summary_renders_in_session_witness :
  quizData ≠ [] ∧
  run (init quizData) quiz_events = Some quiz_final ∧
  phase quiz_final = Some Graded ∧
  summary_of quiz_final = Some (quizData, answerSet quiz_final).
Proof.
  assert (quizData ≠ []) as Hd by discriminate.
  assert (run (init quizData) quiz_events = Some quiz_final) as Hrun by reflexivity.
  assert (phase quiz_final = Some Graded) as Hph by reflexivity.
  split; [exact Hd|]. split; [exact Hrun|]. split; [exact Hph|].
  exact (proj1 (summary_renders_in_session _ _ _ Hd Hrun Hph)).
Defined.

(** X16. For a question with a set-valued [correct], when the selection
    and [correct] are duplicate-free sets of indices of its choices, the
    question is graded correct exactly when the Summary screen shows every
    correct choice in bold and every other choice plain, that is, when no
    correct choice is left unmarked and no line is struck through. *)
Theorem index_set_correct_iff_lines_match
        (userAnswers : list (option (list Z))) (i : nat) (q : QuestionData)
        (cs sel : list Z) :
  correct q = IndexSet cs → js_get userAnswers i = Some sel →
  NoDup cs → NoDup sel →
  (∀ v, v ∈ cs → (0 ≤ v < Z.of_nat (length (choices q)))%Z) →
  (∀ v, v ∈ sel → (0 ≤ v < Z.of_nat (length (choices q)))%Z) →
  Summary.getCorrect (correct q) (js_get userAnswers i) = Ok true ↔
  ∀ idx, idx < length (choices q) →
         SummaryView.questionStyles userAnswers i q !! idx =
         Some (if SummaryView.isCorrect q idx then Bold else Plain).
Proof.
  intros Hc Hget Hndc Hnds Hrc Hrs. rewrite Hc, Hget.
  rewrite getCorrect_set_true, same_length_incl_same_members by done.
  assert (∀ idx, idx < length (choices q) →
            (SummaryView.questionStyles userAnswers i q !! idx =
             Some (if SummaryView.isCorrect q idx then Bold else Plain)
             ↔ (Z.of_nat idx ∈ sel ↔ Z.of_nat idx ∈ cs))) as Hline.
  { intros idx Hidx. rewrite questionStyles_lookup_Some.
    unfold SummaryView.userSelected, SummaryView.isCorrect. rewrite Hget, Hc.
    rewrite <- !includes_elem_of. split.
    - intros [_ Heq]. symmetry in Heq. apply choiceStyle_as_correct in Heq.
      by rewrite Heq.
    - intros Hiff. split; [done|]. symmetry. apply choiceStyle_as_correct.
      apply eq_true_iff_eq. exact Hiff. }
  split.
  - intros Hsame idx Hidx. apply Hline; [done|]. apply Hsame.
  - intros Hlines x.
    assert (∀ y, (0 ≤ y < Z.of_nat (length (choices q)))%Z →
                 (y ∈ sel ↔ y ∈ cs)) as Hin.
    { intros y Hy. rewrite <- (Z2Nat.id y) by lia.
      apply Hline; [lia|]. apply Hlines. lia. }
    split; intros Hx; apply Hin; auto.
Qed.

Lemma index_set_correct_iff_lines_match_witness :
  correct evenNumbers = IndexSet [1; 3]%Z ∧
  js_get [Some [1]; Some [3; 1]; Some [1]]%Z 1 = Some [3; 1]%Z ∧
  NoDup [1; 3]%Z ∧ NoDup [3; 1]%Z ∧
  (∀ v, v ∈ [1; 3]%Z → (0 ≤ v < Z.of_nat (length (choices evenNumbers)))%Z) ∧
  (∀ v, v ∈ [3; 1]%Z → (0 ≤ v < Z.of_nat (length (choices evenNumbers)))%Z) ∧
  (Summary.getCorrect (correct evenNumbers)
     (js_get [Some [1]; Some [3; 1]; Some [1]]%Z 1) = Ok true ↔
   ∀ idx, idx < length (choices evenNumbers) →
          SummaryView.questionStyles [Some [1]; Some [3; 1]; Some [1]]%Z 1
            evenNumbers !! idx =
          Some (if SummaryView.isCorrect evenNumbers idx then Bold else Plain)).
Proof.
  assert (NoDup [1; 3]%Z) as H13 by (apply (bool_decide_unpack _); reflexivity).
  assert (NoDup [3; 1]%Z) as H31 by (apply (bool_decide_unpack _); reflexivity).
  assert (∀ v, v ∈ [1; 3]%Z → (0 ≤ v < Z.of_nat (length (choices evenNumbers)))%Z)
    as Hrc.
  { intros v Hv. apply elem_of_cons in Hv as [->|Hv]; [simpl; lia|].
    apply list_elem_of_singleton in Hv as ->. simpl; lia. }
  assert (∀ v, v ∈ [3; 1]%Z → (0 ≤ v < Z.of_nat (length (choices evenNumbers)))%Z)
    as Hrs.
  { intros v Hv. apply elem_of_cons in Hv as [->|Hv]; [simpl; lia|].
    apply list_elem_of_singleton in Hv as ->. simpl; lia. }
  split; [reflexivity|]. split; [reflexivity|]. split; [exact H13|].
  split; [exact H31|]. split; [exact Hrc|]. split; [exact Hrs|].
  exact (index_set_correct_iff_lines_match
           [Some [1]; Some [3; 1]; Some [1]]%Z 1 evenNumbers [1; 3]%Z [3; 1]%Z
           eq_refl eq_refl H13 H31 Hrc Hrs).
Defined.

(** X17. For a question with a single-index [correct] that is the index
    of one of its choices, and an entry that is present, the question is
    graded correct exactly when the Summary screen shows that choice in
    bold; and no other line of the question is ever bold. *)
Theorem single_index_correct_iff_bold
        (userAnswers : list (option (list Z))) (i : nat) (q : QuestionData)
        (c : Z) (sel : list Z) :
  correct q = SingleIndex c → js_get userAnswers i = Some sel →
  (0 ≤ c < Z.of_nat (length (choices q)))%Z →
  (Summary.getCorrect (correct q) (js_get userAnswers i) = Ok true ↔
   SummaryView.questionStyles userAnswers i q !! Z.to_nat c = Some Bold) ∧
  (∀ idx, SummaryView.questionStyles userAnswers i q !! idx = Some Bold →
          idx = Z.to_nat c).
Proof.
  intros Hc Hget Hrange. split.
  - rewrite Hc, Hget, questionStyles_lookup_Some.
    unfold SummaryView.userSelected, SummaryView.isCorrect.
    rewrite Hget, Hc, Z2Nat.id, Z.eqb_refl by lia. simpl. split.
    + intros [= ->]. split; [lia | done].
    + intros [_ Hst]. by destruct (includes sel c).
  - intros idx Hidx. apply questionStyles_lookup_Some in Hidx as [_ Hst].
    symmetry in Hst. apply choiceStyle_Bold in Hst as [_ Hcorrect].
    unfold SummaryView.isCorrect in Hcorrect. rewrite Hc in Hcorrect.
    apply Z.eqb_eq in Hcorrect. lia.
Qed.

Lemma single_index_correct_iff_bold_witness :
  correct skyIsBlue = SingleIndex 1 ∧
  js_get [Some [1]; Some [3; 1]; Some [0; 1]]%Z 2 = Some [0; 1]%Z ∧
  (0 ≤ 1 < Z.of_nat (length (choices skyIsBlue)))%Z ∧
  (Summary.getCorrect (correct skyIsBlue)
     (js_get [Some [1]; Some [3; 1]; Some [0; 1]]%Z 2) = Ok true ↔
   SummaryView.questionStyles [Some [1]; Some [3; 1]; Some [0; 1]]%Z 2 skyIsBlue
     !! Z.to_nat 1 = Some Bold).
Proof.
  assert ((0 ≤ 1 < Z.of_nat (length (choices skyIsBlue)))%Z) as Hrange
    by (simpl; lia).
  split; [reflexivity|]. split; [reflexivity|]. split; [exact Hrange|].
  exact (proj1 (single_index_correct_iff_bold
                  [Some [1]; Some [3; 1]; Some [0; 1]]%Z 2 skyIsBlue 1 [0; 1]%Z
                  eq_refl eq_refl Hrange)).
Defined.

(** X18. On the Summary screen a line is marked, in bold or struck
    through, exactly when its choice is in the entry of its question; for
    a question whose entry is missing no line is marked. *)
Theorem line_marked_iff_selected
        (userAnswers : list (option (list Z))) (i : nat) (q : QuestionData)
        (idx : nat) (st : Style) :
  SummaryView.questionStyles userAnswers i q !! idx = Some st →
  (st ≠ Plain ↔ ∃ sel, js_get userAnswers i = Some sel ∧ Z.of_nat idx ∈ sel) ∧
  (js_get userAnswers i = None → st = Plain).
Proof.
  intros Hst. apply questionStyles_lookup_Some in Hst as [_ ->].
  unfold SummaryView.userSelected. destruct (js_get userAnswers i) as [sel|].
  - split; [|done]. rewrite choiceStyle_marked. split.
    + intros [= Hin]. exists sel. split; [done|]. by apply includes_elem_of.
    + intros (sel' & [= <-] & Hin). f_equal. by apply includes_elem_of.
  - split; [|done]. split; [done|]. by intros (sel & Hsel & _).
Qed.

Lemma line_marked_iff_selected_witness :
  SummaryView.questionStyles [Some [0]%Z] 0 skyIsBlue !! 0 = Some LineThrough ∧
  (LineThrough ≠ Plain ↔
   ∃ sel, js_get [Some [0]%Z] 0 = Some sel ∧ Z.of_nat 0 ∈ sel).
Proof.
  assert (SummaryView.questionStyles [Some [0]%Z] 0 skyIsBlue !! 0
          = Some LineThrough) as Hst by reflexivity.
  split; [exact Hst|].
  exact (proj1 (line_marked_iff_selected _ _ _ _ _ Hst)).
Defined.

(** ** What the Question screen shows *)

Section QuestionButtons.
Import Route QuestionView.

Lemma render_Ok params selected q :
  Question.question params = Some q →
  render params selected =
  Ok {| shownPrompt := prompt q;
        buttons := imap (λ idx choice, (choice, includes selected (Z.of_nat idx)))
                        (choices q);
        nextIsDisabled := Question.nextDisabled selected |}.
Proof. intros Hq. unfold render. by rewrite Hq. Qed.

Lemma button_lookup (selected : list Z) (cs : list string) idx choice (flag : bool) :
  imap (λ idx choice, (choice, includes selected (Z.of_nat idx))) cs !! idx
  = Some (choice, flag) →
  cs !! idx = Some choice ∧ (flag = true ↔ Z.of_nat idx ∈ selected).
Proof.
  rewrite list_lookup_imap. destruct (cs !! idx) as [c|]; [|done].
  intros [= <- <-]. split; [done|]. apply includes_elem_of.
Qed.

End QuestionButtons.

(** X19. The Question screen throws exactly when [index] is not a
    position of [data]; so an application started on an empty question
    list throws on its first screen. *)
Theorem question_render_throws_iff_out_of_range
        (params : Route.QuestionParams) (selected : list Z) :
  (QuestionView.render params selected = Throw TypeError ↔
   length (Route.data params) ≤ Route.index params) ∧
  (Route.data params = [] → QuestionView.render params selected = Throw TypeError).
Proof.
  assert (QuestionView.render params selected = Throw TypeError ↔
          length (Route.data params) ≤ Route.index params) as Hiff.
  { unfold QuestionView.render, Question.question.
    rewrite <- lookup_ge_None.
    destruct (Route.data params !! Route.index params); split; done. }
  split; [exact Hiff|]. intros Hnil. apply Hiff. rewrite Hnil. simpl. lia.
Qed.

(** X20. In a session the focused Question screen renders, it does not
    throw: it shows the question at its position, one button for each
    choice, a button drawn selected exactly when its choice is in the
    selection, and Next disabled exactly when nothing is selected. Unless
    the question is multiple-answer, at most one button is drawn
    selected. *)
Theorem question_renders_in_session
        (d : list QuestionData) (evs : list Event) (nav : Nav)
        (params : Route.QuestionParams) (selected : list Z) (below : list Screen) :
  d ≠ [] → run (init d) evs = Some nav →
  routes nav = QuestionScreen params selected :: below →
  ∃ q view,
    d !! Route.index params = Some q ∧
    QuestionView.render params selected = Ok view ∧
    QuestionView.shownPrompt view = prompt q ∧
    length (QuestionView.buttons view) = length (choices q) ∧
    (∀ idx choice flag,
       QuestionView.buttons view !! idx = Some (choice, flag) →
       choices q !! idx = Some choice ∧ (flag = true ↔ Z.of_nat idx ∈ selected)) ∧
    (QuestionView.nextIsDisabled view = true ↔ selected = []) ∧
    (type q ≠ MultipleAnswer →
     ∀ idx1 idx2 choice1 choice2,
       QuestionView.buttons view !! idx1 = Some (choice1, true) →
       QuestionView.buttons view !! idx2 = Some (choice2, true) →
       idx1 = idx2).
Proof.
  intros Hd Hrun Hroutes.
  destruct (reachable_inv d _ _ Hd Hrun) as (Hinv & _ & [Htracker _] & _).
  unfold session_inv in Hinv. rewrite Hroutes in Hinv.
  destruct Hinv as (Hdata & Hidx & _).
  destruct (lookup_lt_is_Some_2 _ _ Hidx) as [q Hq].
  destruct (Htracker _ _ _ _ Hroutes Hq) as (_ & _ & Hone).
  assert (Question.question params = Some q) as Hquestion.
  { unfold Question.question. by rewrite Hdata. }
  exists q. eexists. split; [done|]. split; [by apply render_Ok|]. cbn.
  split; [done|]. split; [apply length_imap|].
  split; [intros idx choice flag; apply button_lookup|].
  split; [apply nextDisabled_nil|].
  intros Hty idx1 idx2 choice1 choice2 H1 H2.
  apply button_lookup in H1 as [_ H1]. apply button_lookup in H2 as [_ H2].
  specialize (Hone Hty).
  pose proof (proj1 H1 eq_refl) as Hin1. pose proof (proj1 H2 eq_refl) as Hin2.
  destruct selected as [|v [|w rest]]; [by apply elem_of_nil in Hin1| |simpl in Hone; lia].
  apply list_elem_of_singleton in Hin1, Hin2. lia.
Qed.

Lemma question_renders_in_session_witness :
  quizData ≠ [] ∧
  run (init quizData) quiz_events_first = Some quiz_after_first ∧
  routes quiz_after_first
  = QuestionScreen {| Route.data := quizData; Route.index := 1;
                      Route.userAnswers := 1 |} []
    :: [QuestionScreen {| Route.data := quizData; Route.index := 0;
                          Route.userAnswers := 0 |} [1]%Z] ∧
  ∃ q view,
    quizData !! 1 = Some q ∧
    QuestionView.render {| Route.data := quizData; Route.index := 1;
                           Route.userAnswers := 1 |} [] = Ok view ∧
    QuestionView.shownPrompt view = prompt q.
Proof.
  assert (quizData ≠ []) as Hd by discriminate.
  assert (run (init quizData) quiz_events_first = Some quiz_after_first)
    as Hrun by reflexivity.
  assert (routes quiz_after_first
          = QuestionScreen {| Route.data := quizData; Route.index := 1;
                              Route.userAnswers := 1 |} []
            :: [QuestionScreen {| Route.data := quizData; Route.index := 0;
                                  Route.userAnswers := 0 |} [1]%Z])
    as Hroutes by reflexivity.
  split; [exact Hd|]. split; [exact Hrun|]. split; [exact Hroutes|].
  destruct (question_renders_in_session _ _ _ _ _ _ Hd Hrun Hroutes)
    as (q & view & Hq & Hview & Hprompt & _).
  exists q, view. split; [exact Hq|]. split; [exact Hview | exact Hprompt].
Defined.
